(** * DHCPot: the lease engine of the two DHCP servers of the repository

    [src/main.go] is a cooperative DHCP server that hands out addresses of a
    configured pool; the second program (the "rogue" server built on
    krolaw/dhcp4) answers every client with one fixed address.  Both are
    embedded here as pure functions over explicit state:

    - a [net.IP] is the byte slice Go uses, a [list Z] of bytes in 0..255,
      with [[]] for the nil slice;
    - [time.Time] is an integer count of nanoseconds, [time.Now()] is the
      argument [now] given to a handler (one reading per handled packet);
    - the lease map is a [gmap string Lease] keyed by the textual MAC;
    - a handler returns the new server state and the reply it hands to the
      connection ([None] when it sends nothing). *)

From Stdlib Require Import ZArith Lia Ascii.
From stdpp Require Import gmap strings list fin_maps.

Local Open Scope Z_scope.

(** ** Go's [net] and [bytes] packages, as far as the servers use them *)

Module net.

(** [net.IP] and [net.HardwareAddr] are byte slices. *)
Abbreviation IP := (list Z).
Abbreviation HardwareAddr := (list Z).

Definition IPv4len : nat := 4.
Definition IPv6len : nat := 16.

Definition v4InV6Prefix : list Z := [0; 0; 0; 0; 0; 0; 0; 0; 0; 0; 255; 255].

(** [net.IPv4(a, b, c, d)]: the 16-byte form, also what [net.ParseIP]
    returns for dotted-quad text. *)
Definition IPv4 (a b c d : Z) : IP := v4InV6Prefix ++ [a; b; c; d].

(** [bytes.Equal]. *)
Definition bytes_Equal (a b : list Z) : bool := bool_decide (a = b).

(** [bytes.Compare]: lexicographic, -1 / 0 / +1; a nil slice is empty. *)
Fixpoint bytes_Compare (a b : list Z) : Z :=
  match a, b with
  | [], [] => 0
  | [], _ :: _ => -1
  | _ :: _, [] => 1
  | x :: a', y :: b' =>
      if x <? y then -1 else if y <? x then 1 else bytes_Compare a' b'
  end.

Definition isZeros (p : list Z) : bool := forallb (Z.eqb 0) p.

(** [ip.To4()]: the 4-byte form of an IPv4 address, nil otherwise. *)
Definition To4 (ip : IP) : IP :=
  if Nat.eqb (length ip) IPv4len then ip
  else if Nat.eqb (length ip) IPv6len
          && isZeros (take 10 ip)
          && (ip !!! 10%nat =? 255) && (ip !!! 11%nat =? 255)
       then take 4 (drop 12 ip)
       else [].

(** [ip.Equal(x)]: an IPv4 address equals its 16-byte form. *)
Definition Equal (ip x : IP) : bool :=
  if Nat.eqb (length ip) (length x) then bytes_Equal ip x
  else if Nat.eqb (length ip) IPv4len && Nat.eqb (length x) IPv6len
       then bytes_Equal (take 12 x) v4InV6Prefix && bytes_Equal ip (drop 12 x)
  else if Nat.eqb (length ip) IPv6len && Nat.eqb (length x) IPv4len
       then bytes_Equal (take 12 ip) v4InV6Prefix && bytes_Equal (drop 12 ip) x
  else false.

(** The 16-byte form of a 4-byte address; other slices unchanged.  Two
    addresses are [Equal] exactly when their canonical forms coincide. *)
Definition canon (ip : IP) : IP :=
  if Nat.eqb (length ip) IPv4len then v4InV6Prefix ++ ip else ip.

Definition hexDigit : list ascii := String.list_ascii_of_string "0123456789abcdef".

Definition hexAt (n : Z) : ascii := nth (Z.to_nat n) hexDigit "0"%char.

(** [HardwareAddr.String()]: two hex digits per byte, colon separated. *)
Fixpoint hwBytes (first : bool) (a : list Z) : list ascii :=
  match a with
  | [] => []
  | b :: rest =>
      (if first then [] else [":"%char])
        ++ [hexAt (Z.shiftr b 4); hexAt (Z.land b 15)]
        ++ hwBytes false rest
  end.

Definition HardwareAddr_String (a : HardwareAddr) : string :=
  String.string_of_list_ascii (hwBytes true a).

End net.

(** ** [time]: instants and durations in nanoseconds *)

Module time.

Abbreviation Time := Z.
Abbreviation Duration := Z.

Definition Hour : Duration := 3600 * 1000000000.

(** [t.After(u)] *)
Definition After (t u : Time) : bool := u <? t.

(** [t.Add(d)] *)
Definition Add (t : Time) (d : Duration) : Time := t + d.

End time.

(** Big-endian bytes of a number, used to name IPv4 addresses by value. *)
Fixpoint be_bytes (k : nat) (n : Z) : list Z :=
  match k with
  | O => []
  | S k' => be_bytes k' (n / 256) ++ [n mod 256]
  end.

(** The address with 32-bit value [n], in the 16-byte form of [net.ParseIP]. *)
Definition ipv4_of_Z (n : Z) : net.IP := net.v4InV6Prefix ++ be_bytes 4 n.

(** Value of a dotted quad. *)
Definition quad (a b c d : Z) : Z := ((a * 256 + b) * 256 + c) * 256 + d.

(** ** The cooperative server of [src/main.go] *)

Module Server.

Import net time.

(** DHCP message types (option 53), [MessageTypeNone] when absent. *)
Inductive MessageType :=
| MessageTypeNone | MessageTypeDiscover | MessageTypeOffer
| MessageTypeRequest | MessageTypeDecline | MessageTypeAck
| MessageTypeNak | MessageTypeRelease | MessageTypeInform.

(** The fields of an inbound [dhcpv4.DHCPv4] packet the handlers can read:
    [MsgType] is [pkt.MessageType()] (option 53),
    [RequestedIPAddress] is option 50 (4 bytes, nil when absent),
    [ServerIdentifier] option 54 (nil when absent), [HostName] option 12. *)
Record DHCPv4 := mkPkt {
  ClientHWAddr : HardwareAddr;
  ClientIPAddr : net.IP;
  MsgType : MessageType;
  RequestedIPAddress : net.IP;
  ServerIdentifier : net.IP;
  HostName : string
}.

Record Lease := mkLease {
  IP : net.IP;
  MAC : HardwareAddr;
  ExpiryTime : Time;
  Hostname : string
}.

Record DHCPServer := mkServer {
  serverIP : net.IP;
  subnetMask : list Z;
  routerIP : net.IP;
  dnsServerIPs : list net.IP;
  ipPool : list net.IP;
  leaseDuration : Duration;
  leases : gmap string Lease
}.

Definition set_leases (s : DHCPServer) (m : gmap string Lease) : DHCPServer :=
  mkServer (serverIP s) (subnetMask s) (routerIP s) (dnsServerIPs s)
           (ipPool s) (leaseDuration s) m.

(** Options a reply is built with. *)
Inductive ReplyOption :=
| OptSubnetMask (m : list Z)
| OptRouter (ip : net.IP)
| OptDNS (ips : list net.IP)
| OptIPAddressLeaseTime (d : Duration)
| OptMessage (msg : string).

(** What [dhcpv4.NewReplyFromRequest] is asked to build and the connection
    to send; [rYourIP] is [None] when [WithYourIP] is not applied. *)
Record Reply := mkReply {
  rType : MessageType;
  rYourIP : option net.IP;
  rServerIP : net.IP;
  rOptions : list ReplyOption
}.

(** [nextIP]: the loop [for j := len(next)-1; j >= 0; j--] with the byte
    increment wrapping at 256; [j] below is the source's [j + 1]. *)
Fixpoint nextIP_loop (j : nat) (next : net.IP) : net.IP :=
  match j with
  | O => next
  | S j' =>
      let next' := <[j' := (next !!! j' + 1) mod 256]> next in
      if 0 <? next' !!! j' then next' else nextIP_loop j' next'
  end.

Definition nextIP (ip : net.IP) : net.IP := nextIP_loop (length ip) ip.

(** The pool loop of [NewDHCPServer]:
    [for ip := startIP; bytes.Compare(ip.To4(), endIP.To4()) <= 0; ip = nextIP(ip)].
    [None] when the fuel runs out before the loop condition fails. *)
Fixpoint poolLoop (fuel : nat) (serverIP endIP ip : net.IP) (ipPool : list net.IP)
  : option (list net.IP) :=
  match fuel with
  | O => None
  | S fuel' =>
      if bytes_Compare (To4 ip) (To4 endIP) <=? 0 then
        poolLoop fuel' serverIP endIP (nextIP ip)
                 (if negb (Equal ip serverIP) then ipPool ++ [ip] else ipPool)
      else Some ipPool
  end.

Inductive result (A : Type) :=
| Ok (a : A)
| Err (msg : string)
| OutOfFuel.
Arguments Ok {A} a.
Arguments Err {A} msg.
Arguments OutOfFuel {A}.

(** [NewDHCPServer], from the values [net.ParseIP] and [net.ParseCIDR]
    return for its string arguments: a nil address ([[]]) or a missing
    mask is a parse failure. *)
Definition NewDHCPServer (fuel : nat) (serverIP : net.IP) (subnetMask : option (list Z))
    (routerIP startIP endIP : net.IP) : result DHCPServer :=
  match serverIP with
  | [] => Err "invalid server IP address"
  | _ =>
  match subnetMask with
  | None => Err "invalid subnet mask"
  | Some mask =>
  match routerIP with
  | [] => Err "invalid router IP address"
  | _ =>
  match startIP, endIP with
  | [], _ | _, [] => Err "invalid IP pool range"
  | _, _ =>
      match poolLoop fuel serverIP endIP startIP [] with
      | None => OutOfFuel
      | Some ipPool =>
          Ok (mkServer serverIP mask routerIP
                       [IPv4 8 8 8 8; IPv4 8 8 4 4]
                       ipPool (24 * Hour) ∅)
      end
  end end end end.

Definition configOptions (s : DHCPServer) : list ReplyOption :=
  [OptSubnetMask (subnetMask s); OptRouter (routerIP s);
   OptDNS (dnsServerIPs s); OptIPAddressLeaseTime (leaseDuration s)].

Definition sendOffer (s : DHCPServer) (pkt : DHCPv4) (ip : net.IP) : Reply :=
  mkReply MessageTypeOffer (Some ip) (serverIP s) (configOptions s).

Definition sendAck (s : DHCPServer) (pkt : DHCPv4) (ip : net.IP) : Reply :=
  mkReply MessageTypeAck (Some ip) (serverIP s) (configOptions s).

Definition sendNak (s : DHCPServer) (pkt : DHCPv4) : Reply :=
  mkReply MessageTypeNak None (serverIP s)
          [OptMessage "Requested IP not available."].

(** [isIPAvailable]: the loop over the values of the lease map. *)
Fixpoint isIPAvailable_loop (ls : list Lease) (ip : net.IP) (now : Time) : bool :=
  match ls with
  | [] => true
  | lease :: rest =>
      if Equal (IP lease) ip && After (ExpiryTime lease) now then false
      else isIPAvailable_loop rest ip now
  end.

Definition isIPAvailable (s : DHCPServer) (ip : net.IP) (now : Time) : bool :=
  isIPAvailable_loop (snd <$> map_to_list (leases s)) ip now.

Fixpoint findAvailableIP_loop (s : DHCPServer) (pool : list net.IP) (now : Time)
  : option net.IP :=
  match pool with
  | [] => None
  | ip :: rest =>
      if isIPAvailable s ip now then Some ip
      else findAvailableIP_loop s rest now
  end.

Definition findAvailableIP (s : DHCPServer) (now : Time) : option net.IP :=
  findAvailableIP_loop s (ipPool s) now.

Fixpoint isIPInPool_loop (pool : list net.IP) (ip : net.IP) : bool :=
  match pool with
  | [] => false
  | poolIP :: rest => if Equal poolIP ip then true else isIPInPool_loop rest ip
  end.

Definition isIPInPool (s : DHCPServer) (ip : net.IP) : bool :=
  isIPInPool_loop (ipPool s) ip.

(** The lease of [macStr] when it exists and has not expired. *)
Definition activeLease (s : DHCPServer) (macStr : string) (now : Time)
  : option Lease :=
  match leases s !! macStr with
  | Some lease => if After (ExpiryTime lease) now then Some lease else None
  | None => None
  end.

Definition handleDiscover (s : DHCPServer) (pkt : DHCPv4) (macStr : string)
    (now : Time) : DHCPServer * option Reply :=
  match activeLease s macStr now with
  | Some lease => (s, Some (sendOffer s pkt (IP lease)))
  | None =>
      match findAvailableIP s now with
      | None => (s, None)
      | Some ip => (s, Some (sendOffer s pkt ip))
      end
  end.

(** The lease of [macStr] when it exists and is for [requestedIP]. *)
Definition ownLease (s : DHCPServer) (macStr : string) (requestedIP : net.IP)
  : option Lease :=
  match leases s !! macStr with
  | Some lease => if Equal (IP lease) requestedIP then Some lease else None
  | None => None
  end.

Definition handleRequest (s : DHCPServer) (pkt : DHCPv4) (macStr : string)
    (now : Time) : DHCPServer * option Reply :=
  let requestedIP := RequestedIPAddress pkt in
  if negb (isIPInPool s requestedIP) then (s, Some (sendNak s pkt))
  else
    match ownLease s macStr requestedIP with
    | Some lease =>
        (set_leases s
           (<[macStr := mkLease (IP lease) (MAC lease)
                                (Add now (leaseDuration s)) (Hostname lease)]>
              (leases s)),
         Some (sendAck s pkt requestedIP))
    | None =>
        if isIPAvailable s requestedIP now then
          (set_leases s
             (<[macStr := mkLease requestedIP (ClientHWAddr pkt)
                                  (Add now (leaseDuration s)) (HostName pkt)]>
                (leases s)),
           Some (sendAck s pkt requestedIP))
        else (s, Some (sendNak s pkt))
    end.

Definition handleRelease (s : DHCPServer) (pkt : DHCPv4) (macStr : string)
  : DHCPServer :=
  match leases s !! macStr with
  | Some lease => set_leases s (delete macStr (leases s))
  | None => s
  end.

(** [handleDHCPRequest]: the dispatch, run under the server's lock, so one
    packet at a time. *)
Definition handleDHCPRequest (s : DHCPServer) (pkt : DHCPv4) (now : Time)
  : DHCPServer * option Reply :=
  let macStr := HardwareAddr_String (ClientHWAddr pkt) in
  match MsgType pkt with
  | MessageTypeDiscover => handleDiscover s pkt macStr now
  | MessageTypeRequest => handleRequest s pkt macStr now
  | MessageTypeRelease => (handleRelease s pkt macStr, None)
  | _ => (s, None)
  end.

(** Serving a sequence of packets, each with the time it is handled at. *)
Fixpoint serve (s : DHCPServer) (inbox : list (DHCPv4 * Time))
  : DHCPServer * list (option Reply) :=
  match inbox with
  | [] => (s, [])
  | (pkt, now) :: rest =>
      let '(s', r) := handleDHCPRequest s pkt now in
      let '(s'', rs) := serve s' rest in
      (s'', r :: rs)
  end.

(** States the server can be in after handling packets from [s0] on. *)
Inductive reachable (s0 : DHCPServer) : DHCPServer -> Prop :=
| reach_init : reachable s0 s0
| reach_step s pkt now :
    reachable s0 s -> reachable s0 (fst (handleDHCPRequest s pkt now)).

End Server.

(** ** The adversarial server (the second program, on krolaw/dhcp4) *)

Module Rogue.

Import net time.

Inductive MessageType :=
| Discover | Offer | Request | Decline | ACK | NAK | Release | Inform.

Definition OptionCode := Z.
Definition OptionRequestedIPAddress : OptionCode := 50.
Definition OptionServerIdentifier : OptionCode := 54.

(** [dhcp4.Options] is [map[OptionCode][]byte]; a code that is present
    maps to a non-nil slice, so a lookup yields nil exactly when it is
    [None] here. *)
Abbreviation Options := (gmap Z (list Z)).

Record RogueConfig := mkConfig {
  ServerIP : IP;
  StartIP : IP;
  EndIP : IP;
  ConfigOptions : Options;
  LeaseDuration : Duration
}.

Record RogueDHCPHandler := mkHandler {
  config : RogueConfig;
  leaseDB : gmap string IP
}.

(** The fields of the request [dhcp4.Packet] the handler reads. *)
Record Packet := mkPacket {
  CHAddr : HardwareAddr;
  CIAddr : IP
}.

(** The arguments [dhcp4.ReplyPacket] is called with. *)
Record ReplyPacket := mkReplyPacket {
  replyType : MessageType;
  replyServerId : IP;
  replyYIAddr : IP;
  replyLeaseDuration : Duration;
  replyOptions : list (OptionCode * list Z)
}.

Section Handler.

(** The library's address arithmetic: [dhcp4.IPAdd(start, add)] and
    [dhcp4.IPRange(start, stop)]. *)
Variable IPAdd : IP -> Z -> IP.
Variable IPRange : IP -> IP -> Z.

(** [ServeDHCP].  The option slice is built by ranging over the
    configured map, in whatever order the map yields. *)
Definition ServeDHCP (h : RogueDHCPHandler) (req : Packet)
    (msgType : MessageType) (options : Options)
  : RogueDHCPHandler * option ReplyPacket :=
  let clientMAC := HardwareAddr_String (CHAddr req) in
  let opts := map_to_list (ConfigOptions (config h)) in
  match msgType with
  | Discover =>
      let offeredIP :=
        IPAdd (StartIP (config h))
              (Z.quot (IPRange (StartIP (config h)) (EndIP (config h))) 2) in
      (mkHandler (config h) (<[clientMAC := offeredIP]> (leaseDB h)),
       Some (mkReplyPacket Offer (ServerIP (config h)) offeredIP
                           (LeaseDuration (config h)) opts))
  | Request =>
      let foreign :=
        match options !! OptionServerIdentifier with
        | Some serverIdent => negb (Equal serverIdent (ServerIP (config h)))
        | None => false
        end in
      if foreign then (h, None)
      else
        let requestedIP :=
          match options !! OptionRequestedIPAddress with
          | Some v => v
          | None => CIAddr req
          end in
        let ackIP :=
          match leaseDB h !! clientMAC with
          | Some ip => ip
          | None => requestedIP
          end in
        (h, Some (mkReplyPacket ACK (ServerIP (config h)) ackIP
                                (LeaseDuration (config h)) opts))
  | _ => (h, None)
  end.

End Handler.

(** [dhcp4.IPRange] and [dhcp4.IPAdd] as the library documents them, on
    the 32-bit value of the 4-byte form; used for the examples only. *)
Definition be32 (b : list Z) : Z := foldl (fun acc x => acc * 256 + x) 0 b.

Definition dhcp4_IPRange (start stop : IP) : Z :=
  be32 (To4 stop) - be32 (To4 start) + 1.

Definition dhcp4_IPAdd (start : IP) (add : Z) : IP :=
  be_bytes 4 ((be32 (To4 start) + add) mod 2 ^ 32).

End Rogue.

(** ** Vocabulary of the statements *)

(** The addresses of values [s], [s+1], .. up to [e], in this order, without
    those equal to the server's: what the pool of a range is expected to be. *)
Definition enumerate (server : net.IP) (s e : Z) : list net.IP :=
  filter (fun ip => net.Equal ip server = false) (ipv4_of_Z <$> seqZ s (e - s + 1)).

(** Times of an inbox never go backwards. *)
Fixpoint monotone (t : time.Time) (inbox : list (Server.DHCPv4 * time.Time)) : bool :=
  match inbox with
  | [] => true
  | (_, now) :: rest => (t <=? now) && monotone now rest
  end.

(** No byte of the slice exceeds 255. *)
Definition bytes_ok (l : list Z) : Prop := Forall (fun b => b <= 255) l.

(** The configuration of a server is never touched by a handler. *)
Definition same_config (s s' : Server.DHCPServer) : Prop :=
  Server.serverIP s' = Server.serverIP s
  /\ Server.subnetMask s' = Server.subnetMask s
  /\ Server.routerIP s' = Server.routerIP s
  /\ Server.dnsServerIPs s' = Server.dnsServerIPs s
  /\ Server.ipPool s' = Server.ipPool s
  /\ Server.leaseDuration s' = Server.leaseDuration s.

(** Every stored lease is for an address of the pool. *)
Definition leases_in_pool (s : Server.DHCPServer) : Prop :=
  forall mac l, Server.leases s !! mac = Some l ->
                Server.isIPInPool s (Server.IP l) = true.

(** Mutual exclusion at the instant [now]: two unexpired leases of distinct
    clients are for different addresses. *)
Definition exclusive (s : Server.DHCPServer) (now : time.Time) : Prop :=
  forall m1 m2 l1 l2,
    m1 <> m2 ->
    Server.leases s !! m1 = Some l1 -> Server.leases s !! m2 = Some l2 ->
    time.After (Server.ExpiryTime l1) now = true ->
    time.After (Server.ExpiryTime l2) now = true ->
    net.Equal (Server.IP l1) (Server.IP l2) = false.

(** ** A small configuration used in the examples

    The pool 10.0.0.100 - 10.0.0.102 served by 10.0.0.1, with 24 h leases. *)

Definition demo_server : Server.DHCPServer :=
  Server.mkServer (net.IPv4 10 0 0 1) [255; 255; 255; 0] (net.IPv4 10 0 0 1)
    [net.IPv4 8 8 8 8; net.IPv4 8 8 4 4]
    [net.IPv4 10 0 0 100; net.IPv4 10 0 0 101; net.IPv4 10 0 0 102]
    (24 * time.Hour) ∅.

Definition macA : net.HardwareAddr := [2; 0; 0; 0; 0; 10].
Definition macB : net.HardwareAddr := [2; 0; 0; 0; 0; 11].

Definition discover (mac : net.HardwareAddr) : Server.DHCPv4 :=
  Server.mkPkt mac [] Server.MessageTypeDiscover [] [] "host".

Definition request (mac : net.HardwareAddr) (ip : net.IP) : Server.DHCPv4 :=
  Server.mkPkt mac [] Server.MessageTypeRequest ip [] "host".

Definition release (mac : net.HardwareAddr) : Server.DHCPv4 :=
  Server.mkPkt mac [] Server.MessageTypeRelease [] [] "host".

Definition day : time.Duration := 24 * time.Hour.

Definition macC : net.HardwareAddr := [2; 0; 0; 0; 0; 12].
Definition macD : net.HardwareAddr := [2; 0; 0; 0; 0; 13].

(** The exchange of the specification's first scenario. *)
Definition scenario : list (Server.DHCPv4 * time.Time) :=
  [(discover macA, 0); (request macA [10; 0; 0; 100], 1); (discover macB, 2);
   (release macA, 3); (discover macC, 4)].

(** Its second scenario: the three addresses are bound, then D asks. *)
Definition exhaustion : list (Server.DHCPv4 * time.Time) :=
  [(request macA [10; 0; 0; 100], 0); (request macB [10; 0; 0; 101], 0);
   (request macC [10; 0; 0; 102], 0); (discover macD, 1)].

(** A lease of A runs out, B takes the address, A renews its stale lease. *)
Definition stale_renewal : list (Server.DHCPv4 * time.Time) :=
  [(request macA [10; 0; 0; 100], 0);
   (request macB [10; 0; 0; 100], day);
   (request macA [10; 0; 0; 100], day + 1)].

(** B holds 10.0.0.100 for a day; A asks for an offer just before and right
    at the moment that lease runs out. *)
Definition before_expiry : list (Server.DHCPv4 * time.Time) :=
  [(request macB [10; 0; 0; 100], 0); (discover macA, day - 1); (discover macA, day)].

(** B holds 10.0.0.100 and releases it between two DISCOVERs of A. *)
Definition release_between : list (Server.DHCPv4 * time.Time) :=
  [(request macB [10; 0; 0; 100], 0); (discover macA, 5); (release macB, 5);
   (discover macA, 5)].

(** The address a reply carries, when there is a reply with an address. *)
Definition offered (r : option Server.Reply) : option net.IP :=
  match r with
  | Some reply => Server.rYourIP reply
  | None => None
  end.

(** A packet that cannot change the lease table: neither REQUEST nor RELEASE. *)
Definition readonly (pkt : Server.DHCPv4) : bool :=
  match Server.MsgType pkt with
  | Server.MessageTypeRequest | Server.MessageTypeRelease => false
  | _ => true
  end.

(** A REQUEST that names another server in its server-identifier option. *)
Definition request_for_other_server : Server.DHCPv4 :=
  Server.mkPkt macA [] Server.MessageTypeRequest [10; 0; 0; 100] [10; 0; 0; 2] "host".

(** The configuration of the adversarial server's [main]: it serves from
    172.16.1.100 and draws on the range 172.16.1.150 - 172.16.1.200; router
    (option 3) and DNS (option 6) are its own address, the mask is option 1. *)
Definition rogue_config : Rogue.RogueConfig :=
  Rogue.mkConfig (net.IPv4 172 16 1 100) (net.IPv4 172 16 1 150) (net.IPv4 172 16 1 200)
    (<[3 := net.IPv4 172 16 1 100]>
       (<[6 := net.IPv4 172 16 1 100]> (<[1 := [255; 255; 255; 0]]> ∅)))
    (24 * time.Hour).

Definition rogue_start : Rogue.RogueDHCPHandler := Rogue.mkHandler rogue_config ∅.

(** [ServeDHCP] with the library's address arithmetic. *)
Definition rogue_serve := Rogue.ServeDHCP Rogue.dhcp4_IPAdd Rogue.dhcp4_IPRange.

(** ** Further vocabulary *)

(** Every element is a byte. *)
Definition is_bytes (l : list Z) : Prop := Forall (fun b => 0 <= b < 256) l.

(** The number a byte slice spells, most significant byte first. *)
Definition be_value (l : list Z) : Z := foldl (fun acc x => acc * 256 + x) 0 l.

(** The lease-table key of the client that sent [pkt]. *)
Definition client (pkt : Server.DHCPv4) : string :=
  net.HardwareAddr_String (Server.ClientHWAddr pkt).

(** Whether a REQUEST is granted: the address is in the pool and either the
    sender's own lease is for it or nobody holds it unexpired. *)
Definition granted (s : Server.DHCPServer) (pkt : Server.DHCPv4) (now : time.Time)
  : bool :=
  Server.isIPInPool s (Server.RequestedIPAddress pkt)
  && match Server.ownLease s (client pkt) (Server.RequestedIPAddress pkt) with
     | Some _ => true
     | None => Server.isIPAvailable s (Server.RequestedIPAddress pkt) now
     end.

(** No packet of the inbox is a REQUEST that renews a lease already expired
    when it is handled. *)
Fixpoint no_stale_renewal (s : Server.DHCPServer)
    (inbox : list (Server.DHCPv4 * time.Time)) : bool :=
  match inbox with
  | [] => true
  | (pkt, now) :: rest =>
      match Server.MsgType pkt with
      | Server.MessageTypeRequest =>
          match Server.ownLease s (client pkt) (Server.RequestedIPAddress pkt) with
          | Some l => time.After (Server.ExpiryTime l) now
          | None => true
          end
      | _ => true
      end
      && no_stale_renewal (fst (Server.handleDHCPRequest s pkt now)) rest
  end.

(** Three clients are bound, A renews while its lease runs, D is refused. *)
Definition busy_inbox : list (Server.DHCPv4 * time.Time) :=
  [(request macA [10; 0; 0; 100], 0); (request macB [10; 0; 0; 101], 1);
   (request macC [10; 0; 0; 102], 2); (request macA [10; 0; 0; 100], 10);
   (request macD [10; 0; 0; 100], 11)].

(** The time of the last packet of an inbox, [t] for the empty inbox. *)
Definition end_time (t : time.Time) (inbox : list (Server.DHCPv4 * time.Time))
  : time.Time :=
  foldl (fun _ m => snd m) t inbox.

(** The position of a character in [net.hexDigit] (0 when it is not there):
    the value of a hex digit. *)
Definition unhex (c : ascii) : Z :=
  match list_find (fun d => d = c) net.hexDigit with
  | Some (i, _) => Z.of_nat i
  | None => 0
  end.

(** ** The adversarial server over a sequence of packets *)

Section RogueRuns.

Variable IPAdd : net.IP -> Z -> net.IP.
Variable IPRange : net.IP -> net.IP -> Z.

(** The one address the adversarial server offers. *)
Definition midpoint (cfg : Rogue.RogueConfig) : net.IP :=
  IPAdd (Rogue.StartIP cfg)
        (Z.quot (IPRange (Rogue.StartIP cfg) (Rogue.EndIP cfg)) 2).

(** [dhcp4.Serve] hands each received packet, its message type and its
    options to [ServeDHCP], one after the other. *)
Fixpoint rogue_run (h : Rogue.RogueDHCPHandler)
    (inbox : list (Rogue.Packet * Rogue.MessageType * gmap Z (list Z)))
  : Rogue.RogueDHCPHandler * list (option Rogue.ReplyPacket) :=
  match inbox with
  | [] => (h, [])
  | (req, msgType, options) :: rest =>
      let '(h', r) := Rogue.ServeDHCP IPAdd IPRange h req msgType options in
      let '(h'', rs) := rogue_run h' rest in
      (h'', r :: rs)
  end.

End RogueRuns.

(** The lease-map key of the client that sent [req]. *)
Definition rogue_client (req : Rogue.Packet) : string :=
  net.HardwareAddr_String (Rogue.CHAddr req).

(** * Facts and theorems *)

Example ipv4_of_quad : ipv4_of_Z (quad 192 168 1 100) = net.IPv4 192 168 1 100.
Proof. reflexivity. Qed.

Example mac_string :
  net.HardwareAddr_String [0; 26; 43; 60; 77; 255] = "00:1a:2b:3c:4d:ff"%string.
Proof. reflexivity. Qed.

Example equal_4_16 : net.Equal [10; 0; 0; 7] (net.IPv4 10 0 0 7) = true.
Proof. reflexivity. Qed.

Section NetFacts.
Import net.

Lemma Equal_canon a b : Equal a b = true <-> canon a = canon b.
Proof.
  unfold Equal, canon, bytes_Equal, IPv4len, IPv6len.
  destruct (Nat.eqb_spec (length a) (length b)) as [Hl|Hl].
  - rewrite Hl, bool_decide_eq_true.
    destruct (Nat.eqb_spec (length b) 4); split; intros H; subst; auto.
    by simplify_list_eq.
  - destruct (Nat.eqb_spec (length a) 4) as [Ha|Ha];
    destruct (Nat.eqb_spec (length b) 4) as [Hb|Hb];
    destruct (Nat.eqb_spec (length a) 16) as [Ha'|Ha'];
    destruct (Nat.eqb_spec (length b) 16) as [Hb'|Hb'];
    try lia; cbn [andb];
    rewrite ?andb_true_iff, ?bool_decide_eq_true;
    (split; [try discriminate | intros E]).
    all: try (exfalso; apply (f_equal length) in E;
              rewrite ?length_app in E; simpl in E; lia).
    + intros [H1 H2]. rewrite <- H1, H2. apply take_drop.
    + subst b. split; [reflexivity|]. by rewrite drop_app_length'.
    + intros [H1 H2]. rewrite <- H1, <- H2. symmetry. apply take_drop.
    + subst a. split; [reflexivity|]. by rewrite drop_app_length'.
Qed.

Lemma Equal_trans a b c : Equal a b = true -> Equal b c = true -> Equal a c = true.
Proof. rewrite !Equal_canon. congruence. Qed.

Lemma Equal_sym a b : Equal a b = Equal b a.
Proof.
  destruct (Equal a b) eqn:E1, (Equal b a) eqn:E2; try reflexivity.
  - apply Equal_canon in E1. symmetry in E1. apply Equal_canon in E1. congruence.
  - apply Equal_canon in E2. symmetry in E2. apply Equal_canon in E2. congruence.
Qed.

Lemma Equal_refl a : Equal a a = true.
Proof. by apply Equal_canon. Qed.
End NetFacts.

Section PoolFacts.
Import net Server.

Lemma length_be_bytes k n : length (be_bytes k n) = k.
Proof.
  revert n. induction k as [|k IH]; intros n; simpl; [reflexivity|].
  rewrite length_app, IH. simpl. lia.
Qed.

Lemma nextIP_loop_be p k : forall n q,
  0 <= n -> n + 1 < 256 ^ Z.of_nat k ->
  nextIP_loop (length p + k) (p ++ be_bytes k n ++ q) = p ++ be_bytes k (n + 1) ++ q.
Proof.
  induction k as [|k IH]; intros n q Hn Hlt.
  - simpl in Hlt. lia.
  - replace (length p + S k)%nat with (S (length p + k)) by lia.
    cbn [nextIP_loop be_bytes].
    assert (Hlen : length (p ++ be_bytes k (n / 256)) = (length p + k)%nat)
      by (rewrite length_app, length_be_bytes; reflexivity).
    assert (Hshape : forall m x, p ++ (be_bytes k m ++ [x]) ++ q
                          = (p ++ be_bytes k m) ++ x :: q)
      by (intros; by rewrite <- !app_assoc).
    assert (Hins : forall m x y,
               <[(length p + k)%nat := y]> ((p ++ be_bytes k m) ++ x :: q)
               = (p ++ be_bytes k m) ++ y :: q).
    { intros m x y.
      replace (length p + k)%nat with (length (p ++ be_bytes k m) + 0)%nat
        by (rewrite length_app, length_be_bytes; lia).
      by rewrite insert_app_r. }
    rewrite Hshape.
    rewrite (list_lookup_total_middle _ _ _ _ (eq_sym Hlen)).
    rewrite Hins.
    rewrite (list_lookup_total_middle _ _ _ _ (eq_sym Hlen)).
    assert (H256 : 256 ^ Z.of_nat (S k) = 256 * 256 ^ Z.of_nat k)
      by (rewrite Nat2Z.inj_succ, Z.pow_succ_r; lia).
    pose proof (Z.mod_pos_bound n 256 ltac:(lia)) as Hm.
    pose proof (Z.div_mod n 256 ltac:(lia)) as Hdm.
    destruct (Z.ltb_spec 0 ((n mod 256 + 1) mod 256)) as [Hpos|Hzero].
    + assert (n mod 256 < 255).
      { destruct (Z.eq_dec (n mod 256) 255) as [E|E]; [|lia].
        rewrite E in Hpos. change ((255 + 1) mod 256) with 0 in Hpos. lia. }
      rewrite Hshape. f_equal.
      * f_equal. f_equal. apply Z.div_unique with (n mod 256 + 1); lia.
      * f_equal. rewrite Z.mod_small by lia.
        apply Z.mod_unique with (n / 256); lia.
    + assert (E : n mod 256 = 255).
      { destruct (Z.eq_dec (n mod 256) 255) as [E|E]; [exact E|].
        rewrite Z.mod_small in Hzero by lia. lia. }
      rewrite E. change ((255 + 1) mod 256) with 0.
      rewrite <- app_assoc.
      rewrite IH by (try apply Z.div_pos; nia).
      replace ((n + 1) / 256) with (n / 256 + 1)
        by (apply Z.div_unique with 0; lia).
      replace ((n + 1) mod 256) with 0
        by (apply Z.mod_unique with (n / 256 + 1); lia).
      by rewrite <- !app_assoc.
Qed.

Lemma nextIP_ipv4 n : 0 <= n -> n + 1 < 2 ^ 32 -> nextIP (ipv4_of_Z n) = ipv4_of_Z (n + 1).
Proof.
  intros Hn Hlt. unfold nextIP, ipv4_of_Z.
  rewrite length_app, length_be_bytes.
  rewrite <- (app_nil_r (be_bytes 4 n)).
  rewrite nextIP_loop_be by (change (256 ^ Z.of_nat 4) with (2 ^ 32); lia).
  by rewrite app_nil_r.
Qed.

Lemma To4_ipv4 n : To4 (ipv4_of_Z n) = be_bytes 4 n.
Proof. reflexivity. Qed.

Lemma bytes_Compare_snoc xs : forall ys x y,
  length xs = length ys ->
  bytes_Compare (xs ++ [x]) (ys ++ [y]) =
    if bytes_Compare xs ys =? 0
    then (if x <? y then -1 else if y <? x then 1 else 0)
    else bytes_Compare xs ys.
Proof.
  induction xs as [|a xs IH]; intros [|b ys] x y Hlen; try discriminate.
  - reflexivity.
  - cbn [app bytes_Compare].
    destruct (a <? b); [reflexivity|].
    destruct (b <? a); [reflexivity|].
    apply IH. by injection Hlen.
Qed.

Lemma bytes_Compare_be k : forall a b,
  0 <= a < 256 ^ Z.of_nat k -> 0 <= b < 256 ^ Z.of_nat k ->
  bytes_Compare (be_bytes k a) (be_bytes k b) =
    if a <? b then -1 else if b <? a then 1 else 0.
Proof.
  induction k as [|k IH]; intros a b Ha Hb.
  - simpl in *. assert (a = 0) by lia. assert (b = 0) by lia. by subst.
  - cbn [be_bytes].
    rewrite bytes_Compare_snoc by (by rewrite !length_be_bytes).
    assert (H256 : 256 ^ Z.of_nat (S k) = 256 * 256 ^ Z.of_nat k)
      by (rewrite Nat2Z.inj_succ, Z.pow_succ_r; lia).
    pose proof (Z.mod_pos_bound a 256 ltac:(lia)).
    pose proof (Z.mod_pos_bound b 256 ltac:(lia)).
    pose proof (Z.div_mod a 256 ltac:(lia)).
    pose proof (Z.div_mod b 256 ltac:(lia)).
    assert (0 <= a / 256 < 256 ^ Z.of_nat k)
      by (split; [apply Z.div_pos; lia | apply Z.div_lt_upper_bound; lia]).
    assert (0 <= b / 256 < 256 ^ Z.of_nat k)
      by (split; [apply Z.div_pos; lia | apply Z.div_lt_upper_bound; lia]).
    rewrite IH by assumption.
    repeat match goal with
           | |- context [?x <? ?y] => destruct (Z.ltb_spec x y)
           | |- context [?x =? ?y] => destruct (Z.eqb_spec x y)
           end; try reflexivity; lia.
Qed.

Lemma pool_test_ipv4 s e :
  0 <= s < 2 ^ 32 -> 0 <= e < 2 ^ 32 ->
  (bytes_Compare (To4 (ipv4_of_Z s)) (To4 (ipv4_of_Z e)) <=? 0) = (s <=? e).
Proof.
  intros Hs He. rewrite !To4_ipv4.
  rewrite bytes_Compare_be by (change (256 ^ Z.of_nat 4) with (2 ^ 32); lia).
  repeat match goal with
         | |- context [?x <? ?y] => destruct (Z.ltb_spec x y)
         | |- context [?x <=? ?y] => destruct (Z.leb_spec x y)
         end; try reflexivity; lia.
Qed.

Lemma poolLoop_enum server e :
  0 <= e -> e + 1 < 2 ^ 32 ->
  forall (n : nat) s acc fuel,
    0 <= s -> s + Z.of_nat n = e + 1 -> (n < fuel)%nat ->
    poolLoop fuel server (ipv4_of_Z e) (ipv4_of_Z s) acc
    = Some (acc ++ enumerate server s e).
Proof.
  intros He0 He. unfold enumerate.
  induction n as [|n IH]; intros s acc fuel Hs Hn Hfuel;
    (destruct fuel as [|fuel]; [lia|]); cbn [poolLoop];
    rewrite pool_test_ipv4 by lia.
  - destruct (Z.leb_spec s e); [lia|].
    replace (e - s + 1) with 0 by lia. by rewrite app_nil_r.
  - destruct (Z.leb_spec s e); [|lia].
    rewrite nextIP_ipv4 by lia.
    rewrite IH by lia.
    replace (e - s + 1) with (Z.succ (e - (s + 1) + 1)) by lia.
    rewrite (seqZ_cons s) by lia.
    replace (Z.pred (Z.succ (e - (s + 1) + 1))) with (e - (s + 1) + 1) by lia.
    replace (Z.succ s) with (s + 1) by lia.
    rewrite fmap_cons, filter_cons.
    destruct (Equal (ipv4_of_Z s) server) eqn:E; cbn [negb].
    + rewrite decide_False by discriminate. reflexivity.
    + rewrite decide_True by reflexivity. by rewrite <- app_assoc.
Qed.

Lemma poolLoop_start_beyond server s e acc fuel :
  0 <= s < 2 ^ 32 -> 0 <= e < 2 ^ 32 -> e < s ->
  poolLoop (S fuel) server (ipv4_of_Z e) (ipv4_of_Z s) acc
  = Some (acc ++ enumerate server s e).
Proof.
  intros Hs He Hlt. cbn [poolLoop]. rewrite pool_test_ipv4 by lia.
  destruct (Z.leb_spec s e); [lia|].
  unfold enumerate. rewrite seqZ_nil by lia. by rewrite app_nil_r.
Qed.

Lemma poolLoop_more_fuel server endIP fuel : forall ip acc pool,
  poolLoop fuel server endIP ip acc = Some pool ->
  forall fuel', (fuel <= fuel')%nat ->
    poolLoop fuel' server endIP ip acc = Some pool.
Proof.
  induction fuel as [|fuel IH]; intros ip acc pool H fuel' Hle; [discriminate|].
  destruct fuel' as [|fuel']; [lia|].
  cbn [poolLoop] in *.
  destruct (bytes_Compare (To4 ip) (To4 endIP) <=? 0); [|assumption].
  apply IH with (fuel' := fuel') in H; [assumption | lia].
Qed.

Lemma bytes_ok_be k n : bytes_ok (be_bytes k n).
Proof.
  revert n. induction k as [|k IH]; intros n; cbn [be_bytes]; [constructor|].
  apply Forall_app. split; [apply IH|].
  constructor; [|constructor].
  pose proof (Z.mod_pos_bound n 256 ltac:(lia)). lia.
Qed.

Lemma bytes_ok_ipv4 n : bytes_ok (ipv4_of_Z n).
Proof.
  apply Forall_app. split; [|apply bytes_ok_be].
  unfold v4InV6Prefix. repeat constructor; lia.
Qed.

Lemma bytes_ok_nextIP_loop j : forall l, bytes_ok l -> bytes_ok (nextIP_loop j l).
Proof.
  induction j as [|j IH]; intros l Hl; cbn [nextIP_loop]; [assumption|].
  assert (bytes_ok (<[j:=(l !!! j + 1) mod 256]> l)).
  { apply Forall_insert; [assumption|].
    pose proof (Z.mod_pos_bound (l !!! j + 1) 256 ltac:(lia)). lia. }
  destruct (0 <? _); auto.
Qed.

Lemma bytes_ok_To4 ip : bytes_ok ip -> bytes_ok (To4 ip) /\ (length (To4 ip) <= 4)%nat.
Proof.
  intros H. unfold To4, IPv4len.
  destruct (Nat.eqb_spec (length ip) 4) as [E|E]; [split; [assumption|lia]|].
  destruct (_ && _).
  - split; [by apply Forall_take, Forall_drop | rewrite length_take; lia].
  - split; [constructor | simpl; lia].
Qed.

Lemma bytes_Compare_broadcast x :
  bytes_ok x -> (length x <= 4)%nat -> bytes_Compare x [255; 255; 255; 255] <= 0.
Proof.
  intros Hx Hlen.
  do 5 (destruct x as [|? x]; [cbn [bytes_Compare]; try lia|];
        try (apply Forall_cons in Hx as [? Hx]; cbn [bytes_Compare];
             repeat match goal with
                    | |- context [?a <? ?b] => destruct (Z.ltb_spec a b)
                    end; try lia)).
  simpl in Hlen. lia.
Qed.

(** With the end of the range at 255.255.255.255 the loop test never
    fails: no amount of fuel builds a pool. *)
Lemma poolLoop_broadcast server fuel : forall ip acc,
  bytes_ok ip ->
  poolLoop fuel server (ipv4_of_Z (2 ^ 32 - 1)) ip acc = None.
Proof.
  induction fuel as [|fuel IH]; intros ip acc Hip; [reflexivity|].
  cbn [poolLoop].
  change (To4 (ipv4_of_Z (2 ^ 32 - 1))) with [255; 255; 255; 255].
  destruct (bytes_ok_To4 ip Hip) as [H1 H2].
  pose proof (bytes_Compare_broadcast _ H1 H2).
  destruct (Z.leb_spec (bytes_Compare (To4 ip) [255; 255; 255; 255]) 0); [|lia].
  apply IH. by apply bytes_ok_nextIP_loop.
Qed.

(** Whatever fuel makes the loop return, it returns the enumeration. *)
Lemma poolLoop_sound server s e fuel pool :
  0 <= s < 2 ^ 32 -> 0 <= e < 2 ^ 32 ->
  poolLoop fuel server (ipv4_of_Z e) (ipv4_of_Z s) [] = Some pool ->
  pool = enumerate server s e.
Proof.
  intros Hs He H.
  destruct (Z.eq_dec e (2 ^ 32 - 1)) as [->|Hne].
  { rewrite poolLoop_broadcast in H by apply bytes_ok_ipv4. discriminate. }
  destruct (Z.le_gt_cases s (e + 1)) as [Hle|Hgt].
  - pose proof (poolLoop_enum server e ltac:(lia) ltac:(lia)
                  (Z.to_nat (e + 1 - s)) s [] (S (Z.to_nat (e + 1 - s)))
                  ltac:(lia) ltac:(lia) ltac:(lia)) as Hbig.
    apply poolLoop_more_fuel with (fuel' := (fuel + S (Z.to_nat (e + 1 - s)))%nat) in H; [|lia].
    apply poolLoop_more_fuel with (fuel' := (fuel + S (Z.to_nat (e + 1 - s)))%nat) in Hbig; [|lia].
    rewrite H in Hbig. by injection Hbig.
  - pose proof (poolLoop_start_beyond server s e [] 0 Hs He ltac:(lia)) as Hbig.
    apply poolLoop_more_fuel with (fuel' := S fuel) in H; [|lia].
    apply poolLoop_more_fuel with (fuel' := S fuel) in Hbig; [|lia].
    rewrite H in Hbig. by injection Hbig.
Qed.

Lemma poolLoop_total server s e :
  0 <= s < 2 ^ 32 -> 0 <= e -> e + 1 < 2 ^ 32 ->
  forall fuel, (Z.to_nat (e + 1 - s) < fuel)%nat ->
    poolLoop fuel server (ipv4_of_Z e) (ipv4_of_Z s) [] = Some (enumerate server s e).
Proof.
  intros Hs He0 He fuel Hfuel.
  destruct (Z.le_gt_cases s (e + 1)) as [Hle|Hgt].
  - apply (poolLoop_enum server e He0 He (Z.to_nat (e + 1 - s)) s []); lia.
  - destruct fuel as [|fuel]; [lia|].
    apply (poolLoop_start_beyond server s e []); lia.
Qed.
End PoolFacts.

Section ServerFacts.
Import net time Server.

Lemma isIPAvailable_loop_false ls ip now :
  isIPAvailable_loop ls ip now = false <->
  exists l, l ∈ ls /\ Equal (Server.IP l) ip = true /\ After (ExpiryTime l) now = true.
Proof.
  induction ls as [|l ls IH]; cbn [isIPAvailable_loop].
  - split; [discriminate|]. intros (l & Hin & _). by apply elem_of_nil in Hin.
  - destruct (Equal (Server.IP l) ip && After (ExpiryTime l) now) eqn:E.
    + split; [|reflexivity]. intros _. apply andb_true_iff in E.
      exists l. split; [left | exact E].
    + rewrite IH. apply andb_false_iff in E. split.
      * intros (l' & Hin & H). exists l'. split; [by right | exact H].
      * intros (l' & Hin & H1 & H2). apply elem_of_cons in Hin as [->|Hin].
        -- destruct E; congruence.
        -- exists l'. auto.
Qed.

Lemma isIPAvailable_false s ip now :
  isIPAvailable s ip now = false <->
  exists mac l, leases s !! mac = Some l
                /\ Equal (Server.IP l) ip = true /\ After (ExpiryTime l) now = true.
Proof.
  unfold isIPAvailable. rewrite isIPAvailable_loop_false. split.
  - intros (l & Hin & H). apply list_elem_of_fmap in Hin as ([mac l'] & -> & Hin).
    apply elem_of_map_to_list in Hin. eauto.
  - intros (mac & l & Hl & H). exists l. split; [|exact H].
    apply list_elem_of_fmap. exists (mac, l). split; [reflexivity|].
    by apply elem_of_map_to_list.
Qed.

Lemma isIPAvailable_true s ip now :
  isIPAvailable s ip now = true <->
  forall mac l, leases s !! mac = Some l ->
                Equal (Server.IP l) ip = true -> After (ExpiryTime l) now = false.
Proof.
  split.
  - intros Ha mac l Hl He. destruct (After (ExpiryTime l) now) eqn:E; [|reflexivity].
    assert (isIPAvailable s ip now = false) by (apply isIPAvailable_false; eauto).
    congruence.
  - intros H. destruct (isIPAvailable s ip now) eqn:E; [reflexivity|].
    apply isIPAvailable_false in E as (mac & l & Hl & He & Ht).
    rewrite (H mac l Hl He) in Ht. discriminate.
Qed.

Lemma isIPInPool_loop_true pool ip :
  isIPInPool_loop pool ip = true <-> exists p, p ∈ pool /\ Equal p ip = true.
Proof.
  induction pool as [|p pool IH]; cbn [isIPInPool_loop].
  - split; [discriminate|]. intros (p & Hin & _). by apply elem_of_nil in Hin.
  - destruct (Equal p ip) eqn:E.
    + split; [|reflexivity]. intros _. exists p. split; [left | exact E].
    + rewrite IH. split.
      * intros (p' & Hin & H). exists p'. split; [by right | exact H].
      * intros (p' & Hin & H). apply elem_of_cons in Hin as [->|Hin]; [congruence|eauto].
Qed.

Lemma isIPInPool_Equal s a b :
  Equal a b = true -> isIPInPool s a = true -> isIPInPool s b = true.
Proof.
  unfold isIPInPool. rewrite !isIPInPool_loop_true.
  intros Hab (p & Hin & Hp). exists p. split; [assumption|].
  by apply Equal_trans with a.
Qed.

Lemma findAvailableIP_loop_Some s pool now ip :
  findAvailableIP_loop s pool now = Some ip ->
  ip ∈ pool /\ isIPAvailable s ip now = true.
Proof.
  induction pool as [|p pool IH]; cbn [findAvailableIP_loop]; [discriminate|].
  destruct (isIPAvailable s p now) eqn:E.
  - intros [= <-]. split; [left | assumption].
  - intros H. destruct (IH H). split; [by right | assumption].
Qed.

Lemma findAvailableIP_loop_None s pool now :
  findAvailableIP_loop s pool now = None <->
  forall ip, ip ∈ pool -> isIPAvailable s ip now = false.
Proof.
  induction pool as [|p pool IH]; cbn [findAvailableIP_loop].
  - split; [|reflexivity]. intros _ ip Hin. by apply elem_of_nil in Hin.
  - destruct (isIPAvailable s p now) eqn:E.
    + split; [discriminate|]. intros H. rewrite (H p) in E; [discriminate | left].
    + rewrite IH. split.
      * intros H ip Hin. apply elem_of_cons in Hin as [->|Hin]; auto.
      * intros H ip Hin. apply H. by right.
Qed.

Lemma handle_same_config s pkt now :
  same_config s (fst (handleDHCPRequest s pkt now)).
Proof.
  unfold handleDHCPRequest, handleDiscover, handleRequest, handleRelease.
  repeat match goal with
         | |- context [match ?x with _ => _ end] => destruct x
         end; cbn; repeat split; reflexivity.
Qed.

Lemma reachable_same_config s0 s : reachable s0 s -> same_config s0 s.
Proof.
  induction 1 as [|s pkt now _ IH]; [repeat split|].
  pose proof (handle_same_config s pkt now) as H.
  unfold same_config in *. intuition congruence.
Qed.

Lemma reachable_serve s0 inbox : forall s, reachable s0 s -> reachable s0 (fst (serve s inbox)).
Proof.
  induction inbox as [|[pkt now] inbox IH]; intros s Hs; [exact Hs|].
  cbn [serve].
  pose proof (reach_step s0 s pkt now Hs) as Hstep.
  destruct (handleDHCPRequest s pkt now) as [s' r]. cbn [fst] in Hstep.
  specialize (IH s' Hstep). destruct (serve s' inbox). exact IH.
Qed.

Lemma handle_leases_in_pool s pkt now :
  leases_in_pool s -> leases_in_pool (fst (handleDHCPRequest s pkt now)).
Proof.
  intros Hinv.
  unfold handleDHCPRequest, handleDiscover, handleRequest, handleRelease, ownLease.
  destruct (MsgType pkt); try exact Hinv.
  - destruct (activeLease _ _ _); [exact Hinv|].
    destruct (findAvailableIP _ _); exact Hinv.
  - destruct (isIPInPool s (RequestedIPAddress pkt)) eqn:Hpool; cbn [negb]; [|exact Hinv].
    destruct (leases s !! _) as [lease|] eqn:Hl.
    + destruct (Equal (Server.IP lease) _) eqn:He.
      * intros mac' l'. cbn. rewrite lookup_insert.
        case_decide; [intros [= <-]; cbn; eauto | eauto].
      * destruct (isIPAvailable _ _ _); [|exact Hinv].
        intros mac' l'. cbn. rewrite lookup_insert.
        case_decide; [intros [= <-]; exact Hpool | eauto].
    + destruct (isIPAvailable _ _ _); [|exact Hinv].
      intros mac' l'. cbn. rewrite lookup_insert.
      case_decide; [intros [= <-]; exact Hpool | eauto].
  - destruct (leases s !! _); [|exact Hinv].
    intros mac' l'. cbn. rewrite lookup_delete.
    case_decide; [discriminate | eauto].
Qed.

Lemma reachable_leases_in_pool s0 s :
  leases s0 = ∅ -> reachable s0 s ->
  forall mac l, leases s !! mac = Some l -> isIPInPool s0 (Server.IP l) = true.
Proof.
  intros Hempty Hreach.
  assert (leases_in_pool s /\ ipPool s = ipPool s0) as [Hinv Hpool].
  { induction Hreach as [|s pkt now Hreach [IH1 IH2]].
    - split; [|reflexivity]. intros mac l. rewrite Hempty, lookup_empty. discriminate.
    - split; [by apply handle_leases_in_pool|].
      destruct (handle_same_config s pkt now) as (_ & _ & _ & _ & -> & _). exact IH2. }
  intros mac l Hl. specialize (Hinv mac l Hl).
  unfold isIPInPool in *. by rewrite <- Hpool.
Qed.
End ServerFacts.

(** ** Pool construction and containment *)

Section PoolContainment.
Import net time Server.

Lemma NewDHCPServer_Ok fuel server mask router s e srv :
  NewDHCPServer fuel server mask router (ipv4_of_Z s) (ipv4_of_Z e) = Ok srv ->
  exists pool,
    poolLoop fuel server (ipv4_of_Z e) (ipv4_of_Z s) [] = Some pool
    /\ ipPool srv = pool /\ serverIP srv = server /\ leases srv = ∅
    /\ leaseDuration srv = 24 * Hour.
Proof.
  unfold NewDHCPServer.
  destruct server as [|b0 server]; [discriminate|].
  destruct mask as [mask|]; [|discriminate].
  destruct router as [|r0 router]; [discriminate|].
  change (ipv4_of_Z s) with (0 :: tl (ipv4_of_Z s)).
  change (ipv4_of_Z e) with (0 :: tl (ipv4_of_Z e)).
  cbv iota beta.
  destruct (poolLoop _ _ _ _ _) as [pool|]; [|discriminate].
  intros [= <-]. exists pool. repeat split; reflexivity.
Qed.

Lemma NewDHCPServer_total fuel server mask router s e pool :
  server <> [] -> router <> [] ->
  poolLoop fuel server (ipv4_of_Z e) (ipv4_of_Z s) [] = Some pool ->
  NewDHCPServer fuel server (Some mask) router (ipv4_of_Z s) (ipv4_of_Z e)
  = Ok (mkServer server mask router [IPv4 8 8 8 8; IPv4 8 8 4 4] pool (24 * Hour) ∅).
Proof.
  intros Hs Hr Hpool. unfold NewDHCPServer.
  destruct server as [|b0 server]; [congruence|].
  destruct router as [|r0 router]; [congruence|].
  change (ipv4_of_Z s) with (0 :: tl (ipv4_of_Z s)) in *.
  change (ipv4_of_Z e) with (0 :: tl (ipv4_of_Z e)) in *.
  cbv iota beta. by rewrite Hpool.
Qed.
End PoolContainment.

(** C8. The pool built from the range [s .. e] is the ascending enumeration
    of the addresses from [s] to [e] inclusive without the server's own
    address (and it is built, given enough fuel, whenever the range ends
    below 255.255.255.255); every address stored in a lease of a state
    reachable from the new server is equal to a member of that pool, and is
    not the server's address. *)
Theorem pool_containment (server router : net.IP) (mask : list Z) (s e : Z) :
  0 <= s < 2 ^ 32 -> 0 <= e < 2 ^ 32 ->
  (e + 1 < 2 ^ 32 -> server <> [] -> router <> [] ->
   forall fuel, (Z.to_nat (e + 1 - s) < fuel)%nat ->
     exists srv, Server.NewDHCPServer fuel server (Some mask) router
                   (ipv4_of_Z s) (ipv4_of_Z e) = Server.Ok srv)
  /\ forall fuel mask' srv,
       Server.NewDHCPServer fuel server mask' router (ipv4_of_Z s) (ipv4_of_Z e)
       = Server.Ok srv ->
       Server.ipPool srv = enumerate server s e
       /\ forall st, Server.reachable srv st ->
            forall mac l, Server.leases st !! mac = Some l ->
              Server.isIPInPool srv (Server.IP l) = true
              /\ (exists p, p ∈ Server.ipPool srv /\ net.Equal p (Server.IP l) = true)
              /\ net.Equal (Server.IP l) (Server.serverIP srv) = false.
Proof.
  intros Hs He. split.
  - intros Hlt Hsrv Hr fuel Hfuel. eexists.
    apply NewDHCPServer_total; [assumption..|].
    apply poolLoop_total; [lia..|assumption].
  - intros fuel mask' srv Hnew.
    apply NewDHCPServer_Ok in Hnew as (pool & Hloop & Hpool & Hserver & Hempty & _).
    apply poolLoop_sound in Hloop; [|assumption..]. subst pool.
    split; [assumption|].
    intros st Hreach mac l Hl.
    pose proof (reachable_leases_in_pool srv st Hempty Hreach mac l Hl) as Hin.
    split; [assumption|].
    unfold Server.isIPInPool in Hin.
    apply isIPInPool_loop_true in Hin as (p & Hp & Heq).
    split; [eauto|].
    destruct (net.Equal (Server.IP l) (Server.serverIP srv)) eqn:E; [|reflexivity].
    rewrite Hpool in Hp. unfold enumerate in Hp.
    apply list_elem_of_filter in Hp as [Hne _].
    rewrite Hserver in E. rewrite (Equal_trans _ _ _ Heq E) in Hne. discriminate.
Qed.

Lemma pool_containment_witness :
  exists srv,
    Server.NewDHCPServer 4 (net.IPv4 10 0 0 1) (Some [255; 255; 255; 0])
      (net.IPv4 10 0 0 1) (ipv4_of_Z (quad 10 0 0 100)) (ipv4_of_Z (quad 10 0 0 102))
    = Server.Ok srv.
Proof.
  refine (proj1 (pool_containment (net.IPv4 10 0 0 1) (net.IPv4 10 0 0 1)
                   [255; 255; 255; 0] (quad 10 0 0 100) (quad 10 0 0 102) _ _)
                _ _ _ 4%nat _).
  - vm_compute. split; [discriminate | reflexivity].
  - vm_compute. split; [discriminate | reflexivity].
  - vm_compute. reflexivity.
  - discriminate.
  - discriminate.
  - vm_compute. lia.
Defined.

(** With the end of the range at 255.255.255.255 no server is ever built. *)
Lemma pool_never_built_up_to_broadcast fuel server mask router s :
  server <> [] -> router <> [] ->
  Server.NewDHCPServer fuel server (Some mask) router
    (ipv4_of_Z s) (ipv4_of_Z (2 ^ 32 - 1)) = Server.OutOfFuel.
Proof.
  intros Hs Hr. unfold Server.NewDHCPServer.
  destruct server as [|b0 server]; [congruence|].
  destruct router as [|r0 router]; [congruence|].
  change (ipv4_of_Z s) with (0 :: tl (ipv4_of_Z s)).
  change (ipv4_of_Z (2 ^ 32 - 1)) with (0 :: tl (ipv4_of_Z (2 ^ 32 - 1))).
  cbv iota beta.
  change (0 :: tl (ipv4_of_Z s)) with (ipv4_of_Z s).
  change (0 :: tl (ipv4_of_Z (2 ^ 32 - 1))) with (ipv4_of_Z (2 ^ 32 - 1)).
  by rewrite poolLoop_broadcast by apply bytes_ok_ipv4.
Qed.

(** ** The scenarios of the specification *)

Example scenario_replies :
  (fun r => (Server.rType <$> r, offered r)) <$> snd (Server.serve demo_server scenario)
  = [(Some Server.MessageTypeOffer, Some (net.IPv4 10 0 0 100));
     (Some Server.MessageTypeAck, Some [10; 0; 0; 100]);
     (Some Server.MessageTypeOffer, Some (net.IPv4 10 0 0 101));
     (None, None);
     (Some Server.MessageTypeOffer, Some (net.IPv4 10 0 0 100))].
Proof. reflexivity. Qed.

Example exhaustion_replies :
  last (snd (Server.serve demo_server exhaustion)) = Some None.
Proof. reflexivity. Qed.

(** ** REQUEST: renewal and rejection *)

Example demo_server_built :
  Server.NewDHCPServer 4 (net.IPv4 10 0 0 1) (Some [255; 255; 255; 0])
    (net.IPv4 10 0 0 1) (net.IPv4 10 0 0 100) (net.IPv4 10 0 0 102)
  = Server.Ok demo_server.
Proof. reflexivity. Qed.

(** C6. Rejection leaves the table untouched: a REQUEST for an address
    outside the pool, or for one that a different client holds unexpired
    while the requesting client holds no lease for it, is answered with NAK
    and the server state after it is the state before it. *)
Theorem rejection_leaves_table (s : Server.DHCPServer) (pkt : Server.DHCPv4)
    (now : time.Time) :
  Server.MsgType pkt = Server.MessageTypeRequest ->
  let mac := net.HardwareAddr_String (Server.ClientHWAddr pkt) in
  let ip := Server.RequestedIPAddress pkt in
  Server.isIPInPool s ip = false
  \/ ((forall l, Server.leases s !! mac = Some l -> net.Equal (Server.IP l) ip = false)
      /\ exists other l, other <> mac /\ Server.leases s !! other = Some l
           /\ net.Equal (Server.IP l) ip = true
           /\ time.After (Server.ExpiryTime l) now = true) ->
  Server.handleDHCPRequest s pkt now = (s, Some (Server.sendNak s pkt))
  /\ Server.rType (Server.sendNak s pkt) = Server.MessageTypeNak
  /\ Server.leases (fst (Server.handleDHCPRequest s pkt now)) = Server.leases s.
Proof.
  intros Htype mac ip Hcase.
  assert (Hstep : Server.handleDHCPRequest s pkt now = (s, Some (Server.sendNak s pkt))).
  { unfold Server.handleDHCPRequest. rewrite Htype.
    unfold Server.handleRequest, Server.ownLease. fold mac ip.
    destruct (Server.isIPInPool s ip) eqn:Hpool; cbn [negb]; [|reflexivity].
    destruct Hcase as [Hout | [Hown (other & l & Hne & Hl & Heq & Hexp)]]; [discriminate|].
    assert (Havail : Server.isIPAvailable s ip now = false)
      by (apply isIPAvailable_false; eauto).
    destruct (Server.leases s !! mac) as [own|] eqn:Hmine.
    - rewrite (Hown own eq_refl), Havail. reflexivity.
    - rewrite Havail. reflexivity. }
  rewrite Hstep. repeat split.
Qed.

Lemma rejection_leaves_table_witness :
  let s := fst (Server.serve demo_server [(request macA [10; 0; 0; 100], 0)]) in
  Server.handleDHCPRequest s (request macB [10; 0; 0; 100]) 5
  = (s, Some (Server.sendNak s (request macB [10; 0; 0; 100])))
  /\ Server.handleDHCPRequest s (request macB [10; 0; 0; 7]) 5
     = (s, Some (Server.sendNak s (request macB [10; 0; 0; 7]))).
Proof.
  split.
  - refine (proj1 (rejection_leaves_table
             (fst (Server.serve demo_server [(request macA [10; 0; 0; 100], 0)]))
             (request macB [10; 0; 0; 100]) 5 eq_refl _)).
    right. split.
    + intros l Hl. vm_compute in Hl. discriminate.
    + exists "02:00:00:00:00:0a"%string, (Server.mkLease [10; 0; 0; 100] macA day "host").
      repeat split. discriminate.
  - refine (proj1 (rejection_leaves_table
             (fst (Server.serve demo_server [(request macA [10; 0; 0; 100], 0)]))
             (request macB [10; 0; 0; 7]) 5 eq_refl _)).
    left. reflexivity.
Defined.

(** ** Mutual exclusion and RELEASE *)

(** C1. Mutual exclusion does not survive a stale renewal.  From the empty
    table: A is bound to 10.0.0.100 at time 0; at one day, when that lease
    has run out, B requests the same address and is bound to it; a moment
    later A renews its old lease, which the renewal branch extends without
    asking whether the address is still free.  Both clients then hold
    10.0.0.100 with an expiry in the future. *)
Theorem stale_renewal_shares_address :
  let s := fst (Server.serve demo_server stale_renewal) in
  let now := day + 1 in
  monotone 0 stale_renewal = true
  /\ Server.reachable demo_server s
  /\ exists lA lB,
       Server.leases s !! net.HardwareAddr_String macA = Some lA
       /\ Server.leases s !! net.HardwareAddr_String macB = Some lB
       /\ net.HardwareAddr_String macA <> net.HardwareAddr_String macB
       /\ time.After (Server.ExpiryTime lA) now = true
       /\ time.After (Server.ExpiryTime lB) now = true
       /\ Server.IP lA = Server.IP lB.
Proof.
  split; [reflexivity|].
  split; [apply reachable_serve, Server.reach_init|].
  exists (Server.mkLease [10; 0; 0; 100] macA (2 * day + 1) "host"),
         (Server.mkLease [10; 0; 0; 100] macB (2 * day) "host").
  repeat split. discriminate.
Qed.

(** What the renewal branch misses is the only way to break mutual
    exclusion: a packet that does not renew an expired lease preserves it. *)
Lemma exclusive_later s now now' :
  now <= now' -> exclusive s now -> exclusive s now'.
Proof.
  intros Hle Hex m1 m2 l1 l2 Hne H1 H2 Ht1 Ht2.
  apply (Hex m1 m2 l1 l2 Hne H1 H2); unfold time.After in *; lia.
Qed.

Lemma handle_exclusive s pkt now :
  exclusive s now ->
  (forall l, Server.MsgType pkt = Server.MessageTypeRequest ->
     Server.leases s !! net.HardwareAddr_String (Server.ClientHWAddr pkt) = Some l ->
     net.Equal (Server.IP l) (Server.RequestedIPAddress pkt) = true ->
     time.After (Server.ExpiryTime l) now = true) ->
  exclusive (fst (Server.handleDHCPRequest s pkt now)) now.
Proof.
  intros Hex Hlive.
  unfold Server.handleDHCPRequest, Server.handleDiscover, Server.handleRequest,
    Server.handleRelease, Server.ownLease.
  set (mac := net.HardwareAddr_String (Server.ClientHWAddr pkt)) in *.
  destruct (Server.MsgType pkt) eqn:Htype; try exact Hex.
  - destruct (Server.activeLease _ _ _); [exact Hex|].
    destruct (Server.findAvailableIP _ _); exact Hex.
  - destruct (Server.isIPInPool s _); cbn [negb]; [|exact Hex].
    assert (Hnew : forall ip hw host,
               Server.isIPAvailable s ip now = true ->
               exclusive (Server.set_leases s
                            (<[mac := Server.mkLease ip hw
                                        (time.Add now (Server.leaseDuration s)) host]>
                               (Server.leases s))) now).
    { intros ip hw host Hav m1 m2 l1 l2 Hne. cbn.
      rewrite isIPAvailable_true in Hav.
      rewrite !lookup_insert. repeat case_decide; subst; try congruence.
      - intros [= <-] H2 _ Ht2. cbn.
        destruct (net.Equal ip (Server.IP l2)) eqn:E; [|reflexivity].
        rewrite Equal_sym in E. rewrite (Hav m2 l2 H2 E) in Ht2. discriminate.
      - intros H1 [= <-] Ht1 _. cbn.
        destruct (net.Equal (Server.IP l1) ip) eqn:E; [|reflexivity].
        rewrite (Hav m1 l1 H1 E) in Ht1. discriminate.
      - intros H1 H2. by apply (Hex m1 m2). }
    destruct (Server.leases s !! mac) as [lease|] eqn:Hl.
    + destruct (net.Equal (Server.IP lease) _) eqn:He.
      * specialize (Hlive lease eq_refl eq_refl He).
        intros m1 m2 l1 l2 Hne. cbn.
        rewrite !lookup_insert. repeat case_decide; subst; try congruence.
        -- intros [= <-] H2 _ Ht2. cbn. by apply (Hex mac m2 lease l2).
        -- intros H1 [= <-] Ht1 _. cbn. by apply (Hex m1 mac l1 lease).
        -- intros H1 H2. by apply (Hex m1 m2).
      * destruct (Server.isIPAvailable _ _ _) eqn:Hav; [|exact Hex].
        by apply Hnew.
    + destruct (Server.isIPAvailable _ _ _) eqn:Hav; [|exact Hex].
      by apply Hnew.
  - destruct (Server.leases s !! mac); [|exact Hex].
    intros m1 m2 l1 l2 Hne. cbn.
    rewrite !lookup_delete. repeat case_decide; try discriminate.
    intros H1 H2. by apply (Hex m1 m2).
Qed.

(** Where the released address is held by nobody else, RELEASE does free it
    at once. *)
Lemma release_frees_unshared (s : Server.DHCPServer) (pkt : Server.DHCPv4)
    (now : time.Time) (lease : Server.Lease) :
  Server.MsgType pkt = Server.MessageTypeRelease ->
  let mac := net.HardwareAddr_String (Server.ClientHWAddr pkt) in
  Server.leases s !! mac = Some lease ->
  (forall other l, other <> mac -> Server.leases s !! other = Some l ->
     net.Equal (Server.IP l) (Server.IP lease) = true ->
     time.After (Server.ExpiryTime l) now = false) ->
  let s' := fst (Server.handleDHCPRequest s pkt now) in
  Server.leases s' !! mac = None
  /\ snd (Server.handleDHCPRequest s pkt now) = None
  /\ Server.isIPAvailable s' (Server.IP lease) now = true.
Proof.
  intros Htype mac Hlease Hothers s'. subst s'.
  unfold Server.handleDHCPRequest. rewrite Htype.
  unfold Server.handleRelease. fold mac. rewrite Hlease. cbn [fst snd].
  split; [apply lookup_delete_eq|]. split; [reflexivity|].
  apply isIPAvailable_true. intros other l. cbn.
  rewrite lookup_delete. case_decide; [discriminate|]. intros Hl Heq.
  apply (Hothers other l); auto.
Qed.

(** C7. RELEASE removes the client's lease and is never answered, but after
    a stale renewal the released address is still held by B: the
    availability check for 10.0.0.100 that follows A's RELEASE says "in
    use", although A's own lease (expiry two days and a moment) is gone. *)
Theorem release_after_stale_renewal :
  let s := fst (Server.serve demo_server stale_renewal) in
  let now := day + 2 in
  let '(s', reply) := Server.handleDHCPRequest s (release macA) now in
  (exists lA, Server.leases s !! net.HardwareAddr_String macA = Some lA
              /\ Server.IP lA = [10; 0; 0; 100]
              /\ time.After (Server.ExpiryTime lA) now = true)
  /\ Server.leases s' !! net.HardwareAddr_String macA = None
  /\ reply = None
  /\ Server.isIPAvailable s' [10; 0; 0; 100] now = false.
Proof.
  vm_compute. split; [|repeat split].
  eexists. repeat split.
Qed.

(** ** DISCOVER *)

(** C2, as stated, fails: the DISCOVER of a client without a lease is
    answered with an OFFER of 10.0.0.100, and no lease is stored for it. *)
Lemma discover_stores_no_lease :
  let mac := net.HardwareAddr_String macA in
  let '(s', reply) := Server.handleDHCPRequest demo_server (discover macA) 0 in
  Server.activeLease demo_server mac 0 = None
  /\ Server.findAvailableIP demo_server 0 = Some (net.IPv4 10 0 0 100)
  /\ offered reply = Some (net.IPv4 10 0 0 100)
  /\ Server.leases s' !! mac = None
  /\ Server.leases s' !! mac
     <> Some (Server.mkLease (net.IPv4 10 0 0 100) macA (0 + day) "host").
Proof. vm_compute. repeat split. discriminate. Qed.

(** C2, amended.  On DISCOVER from a client without an unexpired lease: if
    the allocator finds a free address (the first address of the pool no
    unexpired lease holds), the server emits an OFFER carrying it; if it
    finds none, no reply is emitted.  In both cases the server state, and so
    the lease table, is left as it was. *)
Theorem discover_offers_without_recording (s : Server.DHCPServer)
    (pkt : Server.DHCPv4) (now : time.Time) :
  Server.MsgType pkt = Server.MessageTypeDiscover ->
  Server.activeLease s (net.HardwareAddr_String (Server.ClientHWAddr pkt)) now = None ->
  (forall ip, Server.findAvailableIP s now = Some ip ->
     Server.handleDHCPRequest s pkt now = (s, Some (Server.sendOffer s pkt ip))
     /\ Server.rType (Server.sendOffer s pkt ip) = Server.MessageTypeOffer
     /\ Server.rYourIP (Server.sendOffer s pkt ip) = Some ip
     /\ ip ∈ Server.ipPool s
     /\ Server.isIPAvailable s ip now = true)
  /\ (Server.findAvailableIP s now = None ->
      Server.handleDHCPRequest s pkt now = (s, None)
      /\ forall ip, ip ∈ Server.ipPool s -> Server.isIPAvailable s ip now = false).
Proof.
  intros Htype Hnone.
  unfold Server.handleDHCPRequest, Server.handleDiscover.
  rewrite Htype, Hnone. split.
  - intros ip Hfind. rewrite Hfind. repeat split.
    all: apply findAvailableIP_loop_Some in Hfind; tauto.
  - intros Hfind. rewrite Hfind. split; [reflexivity|].
    by apply findAvailableIP_loop_None.
Qed.

Lemma discover_offers_without_recording_witness :
  Server.handleDHCPRequest demo_server (discover macA) 0
  = (demo_server, Some (Server.sendOffer demo_server (discover macA) (net.IPv4 10 0 0 100))).
Proof.
  exact (proj1 (proj1 (discover_offers_without_recording demo_server (discover macA) 0
                         eq_refl eq_refl)
                      (net.IPv4 10 0 0 100) eq_refl)).
Defined.

(** DISCOVER and the ignored message types leave the server as it is. *)
Lemma readonly_keeps_state s pkt now :
  readonly pkt = true -> fst (Server.handleDHCPRequest s pkt now) = s.
Proof.
  unfold readonly, Server.handleDHCPRequest, Server.handleDiscover.
  destruct (Server.MsgType pkt); try discriminate; intros _; try reflexivity.
  destruct (Server.activeLease _ _ _); [reflexivity|].
  destruct (Server.findAvailableIP _ _); reflexivity.
Qed.

Lemma serve_readonly s inbox :
  forallb (fun m => readonly (fst m)) inbox = true -> fst (Server.serve s inbox) = s.
Proof.
  induction inbox as [|[pkt now] inbox IH]; [reflexivity|].
  cbn [forallb fst]. intros [Hr Hrest]%andb_true_iff.
  cbn [Server.serve].
  pose proof (readonly_keeps_state s pkt now Hr) as Hs.
  destruct (Server.handleDHCPRequest s pkt now) as [s' r]. cbn [fst] in Hs. subst s'.
  specialize (IH Hrest). destruct (Server.serve s inbox). exact IH.
Qed.

Lemma isIPAvailable_same_status s ip now1 now2 :
  (forall mac l, Server.leases s !! mac = Some l ->
     time.After (Server.ExpiryTime l) now1 = time.After (Server.ExpiryTime l) now2) ->
  Server.isIPAvailable s ip now1 = Server.isIPAvailable s ip now2.
Proof.
  intros Hsame.
  destruct (Server.isIPAvailable s ip now1) eqn:E1;
    destruct (Server.isIPAvailable s ip now2) eqn:E2; try reflexivity.
  - apply isIPAvailable_false in E2 as (mac & l & Hl & Heq & Ht).
    rewrite isIPAvailable_true in E1.
    rewrite <- (Hsame mac l Hl), (E1 mac l Hl Heq) in Ht. discriminate.
  - apply isIPAvailable_false in E1 as (mac & l & Hl & Heq & Ht).
    rewrite isIPAvailable_true in E2.
    rewrite (Hsame mac l Hl), (E2 mac l Hl Heq) in Ht. discriminate.
Qed.

(** C4, as stated, fails twice over.  With B bound to 10.0.0.100: A's
    DISCOVER just before B's lease runs out is offered 10.0.0.101 and the
    next one, at the expiry, 10.0.0.100; and at one and the same instant, a
    RELEASE of B between two DISCOVERs of A changes the offer likewise.  No
    REQUEST is handled between the two DISCOVERs in either run. *)
Lemma consecutive_discovers_differ :
  (offered <$> snd (Server.serve demo_server before_expiry))
    = [Some [10; 0; 0; 100]; Some (net.IPv4 10 0 0 101); Some (net.IPv4 10 0 0 100)]
  /\ (offered <$> snd (Server.serve demo_server release_between))
    = [Some [10; 0; 0; 100]; Some (net.IPv4 10 0 0 101); None; Some (net.IPv4 10 0 0 100)]
  /\ net.Equal (net.IPv4 10 0 0 101) (net.IPv4 10 0 0 100) = false.
Proof. vm_compute. repeat split. Qed.

(** C4, amended.  Two DISCOVERs from the same client, with neither a REQUEST
    nor a RELEASE handled in between, get the same reply (an OFFER of the
    same address, or no reply both times) provided every lease of the table
    is expired at both instants or unexpired at both; none of these packets
    changes the server state. *)
Theorem offers_stable_while_table_stable (s : Server.DHCPServer)
    (pkt1 pkt2 : Server.DHCPv4) (now1 now2 : time.Time)
    (between : list (Server.DHCPv4 * time.Time)) :
  Server.MsgType pkt1 = Server.MessageTypeDiscover ->
  Server.MsgType pkt2 = Server.MessageTypeDiscover ->
  Server.ClientHWAddr pkt1 = Server.ClientHWAddr pkt2 ->
  forallb (fun m => readonly (fst m)) between = true ->
  (forall mac l, Server.leases s !! mac = Some l ->
     time.After (Server.ExpiryTime l) now1 = time.After (Server.ExpiryTime l) now2) ->
  let '(s1, r1) := Server.handleDHCPRequest s pkt1 now1 in
  let s2 := fst (Server.serve s1 between) in
  let '(s3, r2) := Server.handleDHCPRequest s2 pkt2 now2 in
  r1 = r2 /\ s1 = s /\ s2 = s /\ s3 = s.
Proof.
  intros Ht1 Ht2 Hmac Hbetween Hsame.
  pose proof (readonly_keeps_state s pkt1 now1) as H1.
  unfold readonly in H1. rewrite Ht1 in H1. specialize (H1 eq_refl).
  destruct (Server.handleDHCPRequest s pkt1 now1) as [s1 r1] eqn:E1.
  cbn [fst] in H1. subst s1.
  rewrite (serve_readonly s between Hbetween). cbv zeta.
  pose proof (readonly_keeps_state s pkt2 now2) as H2.
  unfold readonly in H2. rewrite Ht2 in H2. specialize (H2 eq_refl).
  destruct (Server.handleDHCPRequest s pkt2 now2) as [s3 r2] eqn:E2.
  cbn [fst] in H2. subst s3.
  split; [|auto].
  unfold Server.handleDHCPRequest in E1, E2. rewrite Ht1 in E1. rewrite Ht2 in E2.
  rewrite <- Hmac in E2.
  unfold Server.handleDiscover in E1, E2.
  assert (Hactive : Server.activeLease s
                      (net.HardwareAddr_String (Server.ClientHWAddr pkt1)) now1
                    = Server.activeLease s
                      (net.HardwareAddr_String (Server.ClientHWAddr pkt1)) now2).
  { unfold Server.activeLease.
    destruct (Server.leases s !! _) as [l|] eqn:Hl; [|reflexivity].
    by rewrite (Hsame _ l Hl). }
  assert (Hfind : Server.findAvailableIP s now1 = Server.findAvailableIP s now2).
  { unfold Server.findAvailableIP.
    induction (Server.ipPool s) as [|ip pool IH]; [reflexivity|].
    cbn [Server.findAvailableIP_loop].
    rewrite (isIPAvailable_same_status s ip now1 now2 Hsame), IH. reflexivity. }
  rewrite Hactive, Hfind in E1. unfold Server.sendOffer in E1, E2.
  destruct (Server.activeLease _ _ now2).
  - congruence.
  - destruct (Server.findAvailableIP s now2); congruence.
Qed.

Lemma offers_stable_while_table_stable_witness :
  let s := fst (Server.serve demo_server [(request macB [10; 0; 0; 100], 0)]) in
  let '(s1, r1) := Server.handleDHCPRequest s (discover macA) 5 in
  let s2 := fst (Server.serve s1 [(discover macB, 6)]) in
  let '(s3, r2) := Server.handleDHCPRequest s2 (discover macA) 7 in
  r1 = r2 /\ s1 = s /\ s2 = s /\ s3 = s.
Proof.
  refine (offers_stable_while_table_stable
            (fst (Server.serve demo_server [(request macB [10; 0; 0; 100], 0)]))
            (discover macA) (discover macA) 5 7 [(discover macB, 6)]
            eq_refl eq_refl eq_refl eq_refl _).
  intros mac l Hl.
  destruct (decide (mac = "02:00:00:00:00:0b"%string)) as [->|Hne].
  - vm_compute in Hl. injection Hl as <-. reflexivity.
  - assert (Hnone : Server.leases
               (fst (Server.serve demo_server [(request macB [10; 0; 0; 100], 0)]))
               !! mac = None).
    { change (Server.leases
                (fst (Server.serve demo_server [(request macB [10; 0; 0; 100], 0)])))
        with (<["02:00:00:00:00:0b"%string :=
                  Server.mkLease [10; 0; 0; 100] macB day "host"]>
                (∅ : gmap string Server.Lease)).
      rewrite lookup_insert_ne by congruence. apply lookup_empty. }
    rewrite Hnone in Hl. discriminate.
Defined.

(** ** The server identifier of a REQUEST *)

(** C3, as stated, fails for the cooperative server: a REQUEST that names
    10.0.0.2 as its server, sent to the server 10.0.0.1, is answered with an
    ACK and a lease is stored. *)
Lemma foreign_request_is_served :
  let '(s', reply) := Server.handleDHCPRequest demo_server request_for_other_server 0 in
  net.Equal (Server.ServerIdentifier request_for_other_server)
            (Server.serverIP demo_server) = false
  /\ (Server.rType <$> reply) = Some Server.MessageTypeAck
  /\ Server.leases s' !! net.HardwareAddr_String macA
     = Some (Server.mkLease [10; 0; 0; 100] macA day "host")
  /\ Server.leases s' <> Server.leases demo_server.
Proof.
  vm_compute. repeat split. discriminate.
Qed.

(** C3, amended.  The adversarial server answers a REQUEST that carries a
    server identifier different from its own address with nothing, and keeps
    its lease map as it is.  The cooperative server never reads the server
    identifier: what it replies and stores is the same whatever that field
    holds. *)
Theorem foreign_server_identifier (IPAdd : net.IP -> Z -> net.IP)
    (IPRange : net.IP -> net.IP -> Z) (h : Rogue.RogueDHCPHandler)
    (req : Rogue.Packet) (options : gmap Z (list Z)) (serverIdent : net.IP) :
  options !! Rogue.OptionServerIdentifier = Some serverIdent ->
  net.Equal serverIdent (Rogue.ServerIP (Rogue.config h)) = false ->
  Rogue.ServeDHCP IPAdd IPRange h req Rogue.Request options = (h, None)
  /\ forall s hw ci ty rip host ident now,
       Server.handleDHCPRequest s (Server.mkPkt hw ci ty rip ident host) now
       = Server.handleDHCPRequest s (Server.mkPkt hw ci ty rip serverIdent host) now.
Proof.
  intros Hopt Hne. split.
  - unfold Rogue.ServeDHCP. rewrite Hopt, Hne. reflexivity.
  - reflexivity.
Qed.

Lemma foreign_server_identifier_witness :
  rogue_serve rogue_start (Rogue.mkPacket macA [])
    Rogue.Request (<[54 := [172; 16; 1; 1]]> (<[50 := [172; 16; 1; 175]]> ∅))
  = (rogue_start, None).
Proof.
  exact (proj1 (foreign_server_identifier Rogue.dhcp4_IPAdd Rogue.dhcp4_IPRange
                  rogue_start (Rogue.mkPacket macA [])
                  (<[54 := [172; 16; 1; 1]]> (<[50 := [172; 16; 1; 175]]> ∅))
                  [172; 16; 1; 1] eq_refl eq_refl)).
Defined.

(** ** The adversarial server *)

Example rogue_offers_midpoint :
  Rogue.replyYIAddr <$> snd (rogue_serve rogue_start (Rogue.mkPacket macA []) Rogue.Discover ∅)
  = Some [172; 16; 1; 175].
Proof. reflexivity. Qed.

(** C9. The address offered on DISCOVER is [IPAdd StartIP (IPRange StartIP
    EndIP / 2)]: it depends on the configured range only, so whatever the
    lease map holds and whoever asks, with whatever options, the OFFER
    carries the same address (which is also recorded for the client). *)
Theorem rogue_offer_is_fixed (IPAdd : net.IP -> Z -> net.IP)
    (IPRange : net.IP -> net.IP -> Z) (cfg : Rogue.RogueConfig)
    (db1 db2 : gmap string net.IP) (req1 req2 : Rogue.Packet)
    (options1 options2 : gmap Z (list Z)) :
  let midpoint :=
    IPAdd (Rogue.StartIP cfg)
          (Z.quot (IPRange (Rogue.StartIP cfg) (Rogue.EndIP cfg)) 2) in
  let '(h1, r1) := Rogue.ServeDHCP IPAdd IPRange (Rogue.mkHandler cfg db1) req1
                     Rogue.Discover options1 in
  let '(h2, r2) := Rogue.ServeDHCP IPAdd IPRange (Rogue.mkHandler cfg db2) req2
                     Rogue.Discover options2 in
  (Rogue.replyType <$> r1) = Some Rogue.Offer
  /\ (Rogue.replyType <$> r2) = Some Rogue.Offer
  /\ (Rogue.replyYIAddr <$> r1) = Some midpoint
  /\ (Rogue.replyYIAddr <$> r2) = Some midpoint
  /\ (Rogue.replyYIAddr <$> r1) = (Rogue.replyYIAddr <$> r2)
  /\ Rogue.leaseDB h1 !! net.HardwareAddr_String (Rogue.CHAddr req1) = Some midpoint
  /\ Rogue.leaseDB h2 !! net.HardwareAddr_String (Rogue.CHAddr req2) = Some midpoint.
Proof.
  cbn. repeat split; apply lookup_insert_eq.
Qed.

(** C10. A REQUEST whose server identifier is absent or equal to this
    server's address is answered with an ACK for the address recorded for
    the client in the lease map or, without an entry, for the requested
    address (option 50), or, without that option, for the client's own
    address field; the lease map is unchanged, the pool range is not
    consulted, and no message type or option set makes the handler reply
    with a NAK. *)
Theorem rogue_request_always_acked (IPAdd : net.IP -> Z -> net.IP)
    (IPRange : net.IP -> net.IP -> Z) (h : Rogue.RogueDHCPHandler)
    (req : Rogue.Packet) (options : gmap Z (list Z)) :
  (options !! Rogue.OptionServerIdentifier = None
   \/ exists serverIdent, options !! Rogue.OptionServerIdentifier = Some serverIdent
        /\ net.Equal serverIdent (Rogue.ServerIP (Rogue.config h)) = true) ->
  let requestedIP :=
    match options !! Rogue.OptionRequestedIPAddress with
    | Some v => v
    | None => Rogue.CIAddr req
    end in
  let ackIP :=
    match Rogue.leaseDB h !! net.HardwareAddr_String (Rogue.CHAddr req) with
    | Some ip => ip
    | None => requestedIP
    end in
  Rogue.ServeDHCP IPAdd IPRange h req Rogue.Request options
  = (h, Some (Rogue.mkReplyPacket Rogue.ACK (Rogue.ServerIP (Rogue.config h)) ackIP
                (Rogue.LeaseDuration (Rogue.config h))
                (map_to_list (Rogue.ConfigOptions (Rogue.config h)))))
  /\ forall h' req' msgType options' reply,
       snd (Rogue.ServeDHCP IPAdd IPRange h' req' msgType options') = Some reply ->
       Rogue.replyType reply <> Rogue.NAK.
Proof.
  intros Hident. split.
  - unfold Rogue.ServeDHCP.
    destruct Hident as [-> | (serverIdent & -> & ->)]; reflexivity.
  - intros h' req' msgType options' reply. unfold Rogue.ServeDHCP.
    destruct msgType; cbn [snd]; try discriminate.
    + intros [= <-]. discriminate.
    + destruct (match options' !! Rogue.OptionServerIdentifier with
                | Some serverIdent => _ | None => false end); cbn [snd]; [discriminate|].
      intros [= <-]. discriminate.
Qed.

Lemma rogue_request_always_acked_witness :
  (Rogue.replyYIAddr <$>
     snd (rogue_serve rogue_start (Rogue.mkPacket macA [172; 16; 1; 9]) Rogue.Request
            (<[50 := [8; 8; 8; 8]]> ∅)))
  = Some [8; 8; 8; 8].
Proof.
  exact (f_equal (fun p => Rogue.replyYIAddr <$> snd p)
           (proj1 (rogue_request_always_acked Rogue.dhcp4_IPAdd Rogue.dhcp4_IPRange
                     rogue_start (Rogue.mkPacket macA [172; 16; 1; 9])
                     (<[50 := [8; 8; 8; 8]]> ∅) (or_introl eq_refl)))).
Defined.

(** * Further properties of the two servers *)

(** ** [nextIP] *)

Lemma length_nextIP_loop j : forall l, length (Server.nextIP_loop j l) = length l.
Proof.
  induction j as [|j IH]; intros l; cbn [Server.nextIP_loop]; [reflexivity|].
  destruct (0 <? _); [apply length_insert|].
  rewrite IH. apply length_insert.
Qed.

Lemma nextIP_loop_be_wrap k : forall n q,
  Server.nextIP_loop k (be_bytes k n ++ q) = be_bytes k (n + 1) ++ q.
Proof.
  induction k as [|k IH]; intros n q; [reflexivity|].
  cbn [Server.nextIP_loop be_bytes].
  rewrite <- !app_assoc. cbn [app].
  assert (Hlen : forall m, length (be_bytes k m) = k) by (intros; apply length_be_bytes).
  assert (Hins : forall m x y,
             <[k := y]> (be_bytes k m ++ x :: q) = be_bytes k m ++ y :: q).
  { intros m x y.
    replace k with (length (be_bytes k m) + 0)%nat at 1 by (rewrite Hlen; lia).
    by rewrite insert_app_r. }
  rewrite (list_lookup_total_middle _ _ _ _ (eq_sym (Hlen _))).
  rewrite Hins.
  rewrite (list_lookup_total_middle _ _ _ _ (eq_sym (Hlen _))).
  pose proof (Z.mod_pos_bound n 256 ltac:(lia)) as Hm.
  pose proof (Z.div_mod n 256 ltac:(lia)) as Hdm.
  destruct (Z.ltb_spec 0 ((n mod 256 + 1) mod 256)) as [Hpos|Hzero].
  - assert (n mod 256 < 255).
    { destruct (Z.eq_dec (n mod 256) 255) as [E|E]; [|lia].
      rewrite E in Hpos. change ((255 + 1) mod 256) with 0 in Hpos. lia. }
    f_equal.
    + f_equal. apply Z.div_unique with (n mod 256 + 1); lia.
    + f_equal. rewrite Z.mod_small by lia.
      apply Z.mod_unique with (n / 256); lia.
  - assert (E : n mod 256 = 255).
    { destruct (Z.eq_dec (n mod 256) 255) as [E|E]; [exact E|].
      rewrite Z.mod_small in Hzero by lia. lia. }
    rewrite E. change ((255 + 1) mod 256) with 0.
    rewrite IH.
    replace ((n + 1) / 256) with (n / 256 + 1)
      by (apply Z.div_unique with 0; lia).
    replace ((n + 1) mod 256) with 0
      by (apply Z.mod_unique with (n / 256 + 1); lia).
    reflexivity.
Qed.

Lemma be_value_snoc l x : be_value (l ++ [x]) = be_value l * 256 + x.
Proof. unfold be_value. by rewrite foldl_app. Qed.

Lemma be_value_be_bytes k : forall n, be_value (be_bytes k n) = n mod 256 ^ Z.of_nat k.
Proof.
  induction k as [|k IH]; intros n.
  - cbn. by rewrite Z.mod_1_r.
  - cbn [be_bytes]. rewrite be_value_snoc, IH.
    rewrite Nat2Z.inj_succ, Z.pow_succ_r by lia.
    rewrite Z.rem_mul_r by lia. lia.
Qed.

Lemma be_bytes_be_value l : is_bytes l -> be_bytes (length l) (be_value l) = l.
Proof.
  induction l as [|x l IH] using rev_ind; intros Hl; [reflexivity|].
  apply Forall_app in Hl as [Hl Hx]. apply Forall_inv in Hx. cbv beta in Hx.
  rewrite length_app, Nat.add_1_r. cbn [be_bytes].
  rewrite be_value_snoc.
  replace ((be_value l * 256 + x) / 256) with (be_value l)
    by (apply Z.div_unique with x; lia).
  replace ((be_value l * 256 + x) mod 256) with x
    by (apply Z.mod_unique with (be_value l); lia).
  by rewrite IH.
Qed.

Lemma is_bytes_be_bytes k n : is_bytes (be_bytes k n).
Proof.
  revert n. induction k as [|k IH]; intros n; cbn [be_bytes]; [constructor|].
  apply Forall_app. split; [apply IH|].
  constructor; [|constructor]. apply Z.mod_pos_bound. lia.
Qed.

(** X1. [nextIP] adds one to the number the slice spells, big-endian, and
    wraps to zero past the largest value of its length; the result has the
    length of the argument and is again a slice of bytes. *)
Theorem nextIP_adds_one (ip : net.IP) :
  is_bytes ip ->
  length (Server.nextIP ip) = length ip
  /\ is_bytes (Server.nextIP ip)
  /\ be_value (Server.nextIP ip) = (be_value ip + 1) mod 256 ^ Z.of_nat (length ip).
Proof.
  intros Hip.
  assert (Hnext : Server.nextIP ip = be_bytes (length ip) (be_value ip + 1)).
  { unfold Server.nextIP.
    rewrite <- (be_bytes_be_value ip Hip) at 2.
    rewrite <- (app_nil_r (be_bytes _ _)).
    rewrite nextIP_loop_be_wrap. apply app_nil_r. }
  rewrite Hnext. split; [apply length_be_bytes|].
  split; [apply is_bytes_be_bytes | apply be_value_be_bytes].
Qed.

Lemma nextIP_adds_one_witness :
  Server.nextIP [10; 0; 255; 255] = [10; 1; 0; 0]
  /\ be_value (Server.nextIP [255; 255; 255; 255]) = 0.
Proof.
  split; [reflexivity|].
  refine (eq_trans (proj2 (proj2 (nextIP_adds_one [255; 255; 255; 255] _))) eq_refl).
  repeat constructor; lia.
Defined.

(** ** [NewDHCPServer] on arbitrary addresses *)

Lemma NewDHCPServer_Ok_inv fuel server mask router startIP endIP srv :
  Server.NewDHCPServer fuel server mask router startIP endIP = Server.Ok srv ->
  exists m pool,
    server <> [] /\ router <> [] /\ startIP <> [] /\ endIP <> []
    /\ mask = Some m
    /\ Server.poolLoop fuel server endIP startIP [] = Some pool
    /\ srv = Server.mkServer server m router [net.IPv4 8 8 8 8; net.IPv4 8 8 4 4]
               pool (24 * time.Hour) ∅.
Proof.
  unfold Server.NewDHCPServer.
  destruct server as [|b0 server]; [discriminate|].
  destruct mask as [m|]; [|discriminate].
  destruct router as [|r0 router]; [discriminate|].
  destruct startIP as [|s0 startIP]; [discriminate|].
  destruct endIP as [|e0 endIP]; [discriminate|].
  destruct (Server.poolLoop _ _ _ _ _) as [pool|]; [|discriminate].
  intros [= <-]. exists m, pool. repeat split; discriminate.
Qed.

Lemma NewDHCPServer_valid fuel server m router startIP endIP :
  server <> [] -> router <> [] -> startIP <> [] -> endIP <> [] ->
  Server.NewDHCPServer fuel server (Some m) router startIP endIP
  = match Server.poolLoop fuel server endIP startIP [] with
    | None => Server.OutOfFuel
    | Some pool =>
        Server.Ok (Server.mkServer server m router [net.IPv4 8 8 8 8; net.IPv4 8 8 4 4]
                     pool (24 * time.Hour) ∅)
    end.
Proof.
  intros Hs Hr Hst He. unfold Server.NewDHCPServer.
  destruct server; [congruence|]. destruct router; [congruence|].
  destruct startIP; [congruence|]. destruct endIP; [congruence|]. reflexivity.
Qed.

Lemma poolLoop_entries server endIP (n : nat) fuel : forall ip acc pool,
  Server.poolLoop fuel server endIP ip acc = Some pool ->
  length ip = n ->
  Forall (fun p => length p = n /\ net.Equal p server = false) acc ->
  Forall (fun p => length p = n /\ net.Equal p server = false) pool.
Proof.
  induction fuel as [|fuel IH]; intros ip acc pool H Hlen Hacc; [discriminate|].
  cbn [Server.poolLoop] in H.
  destruct (net.bytes_Compare _ _ <=? 0); [|by injection H as <-].
  apply IH in H; [assumption | |].
  - unfold Server.nextIP. by rewrite length_nextIP_loop.
  - destruct (net.Equal ip server) eqn:E; cbn [negb]; [assumption|].
    apply Forall_app. split; [assumption|]. by repeat constructor.
Qed.

Lemma pool_entries_not_nil fuel server router startIP endIP mask srv :
  Server.NewDHCPServer fuel server mask router startIP endIP = Server.Ok srv ->
  Forall (fun p => p <> []) (Server.ipPool srv).
Proof.
  intros H.
  apply NewDHCPServer_Ok_inv in H
    as (m & pool & Hs & Hr & Hst & He & -> & Hloop & ->).
  cbn.
  apply poolLoop_entries with (n := length startIP) in Hloop;
    [|reflexivity|constructor].
  eapply Forall_impl; [exact Hloop|].
  intros p [Hlen _] ->. destruct startIP; [congruence | discriminate].
Qed.

(** X2. A server that [NewDHCPServer] returns has the given addresses and
    mask, Google's two DNS servers, a 24 hour lease time and an empty lease
    table; each address of its pool has the length of the start address (so
    none is nil) and none equals the server's own address.  This holds for
    any start and end slices, IPv4 or not. *)
Theorem new_server_postcondition (fuel : nat) (server router startIP endIP : net.IP)
    (mask : option (list Z)) (srv : Server.DHCPServer) :
  Server.NewDHCPServer fuel server mask router startIP endIP = Server.Ok srv ->
  Server.serverIP srv = server
  /\ mask = Some (Server.subnetMask srv)
  /\ Server.routerIP srv = router
  /\ Server.dnsServerIPs srv = [net.IPv4 8 8 8 8; net.IPv4 8 8 4 4]
  /\ Server.leaseDuration srv = 24 * 3600 * 1000000000
  /\ Server.leases srv = ∅
  /\ server <> [] /\ router <> [] /\ startIP <> [] /\ endIP <> []
  /\ Forall (fun p => length p = length startIP /\ p <> []
                      /\ net.Equal p server = false) (Server.ipPool srv).
Proof.
  intros H.
  apply NewDHCPServer_Ok_inv in H
    as (m & pool & Hs & Hr & Hst & He & -> & Hloop & ->).
  cbn. repeat split; try assumption.
  apply poolLoop_entries with (n := length startIP) in Hloop;
    [|reflexivity|constructor].
  eapply Forall_impl; [exact Hloop|].
  intros p [Hlen Hne]. repeat split; try assumption.
  intros ->. destruct startIP; [congruence | discriminate].
Qed.

Lemma new_server_postcondition_witness :
  Server.leases demo_server = ∅
  /\ Forall (fun p => length p = 16%nat /\ p <> []
                      /\ net.Equal p (net.IPv4 10 0 0 1) = false)
       (Server.ipPool demo_server).
Proof.
  pose proof (new_server_postcondition 4 (net.IPv4 10 0 0 1) (net.IPv4 10 0 0 1)
                (net.IPv4 10 0 0 100) (net.IPv4 10 0 0 102) (Some [255; 255; 255; 0])
                demo_server eq_refl) as H.
  split; [apply H | apply H].
Defined.

(** X3. When the end of the range is 255.255.255.255 the loop test of the
    pool construction can never fail, whatever the start address: with
    otherwise valid arguments [NewDHCPServer] does not return, however much
    fuel it is given. *)
Theorem broadcast_end_never_returns (fuel : nat) (server router startIP : net.IP)
    (mask : list Z) :
  server <> [] -> router <> [] -> startIP <> [] -> bytes_ok startIP ->
  Server.NewDHCPServer fuel server (Some mask) router startIP
    (net.IPv4 255 255 255 255) = Server.OutOfFuel.
Proof.
  intros Hs Hr Hst Hbytes.
  rewrite NewDHCPServer_valid by (assumption || discriminate).
  change (net.IPv4 255 255 255 255) with (ipv4_of_Z (2 ^ 32 - 1)).
  by rewrite poolLoop_broadcast.
Qed.

Lemma broadcast_end_never_returns_witness :
  Server.NewDHCPServer 5000 (net.IPv4 10 0 0 1) (Some [255; 255; 255; 0])
    (net.IPv4 10 0 0 1) (net.IPv4 255 255 255 250) (net.IPv4 255 255 255 255)
  = Server.OutOfFuel.
Proof.
  apply (broadcast_end_never_returns 5000); try discriminate.
  repeat constructor; lia.
Defined.

(** ** Degenerate pools and requests *)

Lemma empty_server_step s pkt now :
  Server.ipPool s = [] -> Server.leases s = ∅ ->
  Server.handleDHCPRequest s pkt now
  = (s, match Server.MsgType pkt with
        | Server.MessageTypeRequest => Some (Server.sendNak s pkt)
        | _ => None
        end).
Proof.
  intros Hpool Hleases.
  unfold Server.handleDHCPRequest, Server.handleDiscover, Server.handleRequest,
    Server.handleRelease, Server.activeLease, Server.findAvailableIP, Server.isIPInPool.
  rewrite Hpool, Hleases, lookup_empty.
  destruct (Server.MsgType pkt); reflexivity.
Qed.

(** X4. A range whose start lies beyond its end is not reported as an
    error: [NewDHCPServer] returns a server with an empty pool.  That server
    never changes state, answers every REQUEST with NAK and sends nothing
    for any other packet. *)
Theorem inverted_range_serves_nobody (fuel : nat) (server router : net.IP)
    (mask : list Z) (s e : Z) :
  0 <= s < 2 ^ 32 -> 0 <= e < 2 ^ 32 -> e < s ->
  server <> [] -> router <> [] ->
  exists srv,
    Server.NewDHCPServer (S fuel) server (Some mask) router (ipv4_of_Z s) (ipv4_of_Z e)
    = Server.Ok srv
    /\ Server.ipPool srv = []
    /\ forall st, Server.reachable srv st ->
         st = srv
         /\ forall pkt now,
              Server.handleDHCPRequest st pkt now
              = (st, match Server.MsgType pkt with
                     | Server.MessageTypeRequest => Some (Server.sendNak st pkt)
                     | _ => None
                     end).
Proof.
  intros Hs He Hlt Hsrv Hr.
  eexists. split.
  { rewrite NewDHCPServer_valid by (assumption || discriminate).
    rewrite (poolLoop_start_beyond server s e [] fuel Hs He Hlt). reflexivity. }
  assert (Hnil : enumerate server s e = []).
  { unfold enumerate. by rewrite seqZ_nil by lia. }
  cbn [app Server.ipPool]. split; [assumption|].
  intros st Hreach.
  assert (Hst : st = Server.mkServer server mask router
                       [net.IPv4 8 8 8 8; net.IPv4 8 8 4 4]
                       (enumerate server s e) (24 * time.Hour) ∅).
  { induction Hreach as [|st pkt now _ IH]; [reflexivity|].
    rewrite IH at 1. rewrite empty_server_step by (cbn; auto). reflexivity. }
  split; [assumption|].
  intros pkt now. apply empty_server_step; rewrite Hst; cbn; auto.
Qed.

Lemma inverted_range_serves_nobody_witness :
  exists srv,
    Server.NewDHCPServer 1 (net.IPv4 10 0 0 1) (Some [255; 255; 255; 0])
      (net.IPv4 10 0 0 1) (ipv4_of_Z (quad 10 0 0 200)) (ipv4_of_Z (quad 10 0 0 100))
    = Server.Ok srv
    /\ Server.ipPool srv = [].
Proof.
  destruct (inverted_range_serves_nobody 0 (net.IPv4 10 0 0 1) (net.IPv4 10 0 0 1)
              [255; 255; 255; 0] (quad 10 0 0 200) (quad 10 0 0 100))
    as (srv & Hnew & Hpool & _).
  - vm_compute. split; [discriminate | reflexivity].
  - vm_compute. split; [discriminate | reflexivity].
  - reflexivity.
  - discriminate.
  - discriminate.
  - exists srv. split; assumption.
Defined.

Lemma Equal_nil_r p : p <> [] -> net.Equal p [] = false.
Proof.
  intros Hp. destruct (net.Equal p []) eqn:E; [|reflexivity].
  apply Equal_canon in E. unfold net.canon in E. cbn in E.
  destruct (Nat.eqb _ _); [discriminate | congruence].
Qed.

(** X5. A REQUEST without a requested-address option (the field is nil) is
    never granted: in every state of a server built by [NewDHCPServer] it is
    answered with NAK and changes nothing, whoever sends it and whatever
    lease the sender holds; the client's own address field is not used. *)
Theorem request_without_address_nak (fuel : nat) (server router startIP endIP : net.IP)
    (mask : option (list Z)) (srv st : Server.DHCPServer) (pkt : Server.DHCPv4)
    (now : time.Time) :
  Server.NewDHCPServer fuel server mask router startIP endIP = Server.Ok srv ->
  Server.reachable srv st ->
  Server.MsgType pkt = Server.MessageTypeRequest ->
  Server.RequestedIPAddress pkt = [] ->
  Server.handleDHCPRequest st pkt now = (st, Some (Server.sendNak st pkt)).
Proof.
  intros Hnew Hreach Htype Hnil.
  pose proof (pool_entries_not_nil fuel server router startIP endIP mask srv Hnew)
    as Hpool.
  destruct (reachable_same_config srv st Hreach) as (_ & _ & _ & _ & Hp & _).
  unfold Server.handleDHCPRequest, Server.handleRequest. rewrite Htype, Hnil.
  assert (Hout : Server.isIPInPool st [] = false).
  { unfold Server.isIPInPool. rewrite Hp.
    destruct (Server.isIPInPool_loop (Server.ipPool srv) []) eqn:E; [|reflexivity].
    apply isIPInPool_loop_true in E as (p & Hin & Heq).
    rewrite Forall_forall in Hpool. specialize (Hpool p Hin).
    rewrite Equal_nil_r in Heq by assumption. discriminate. }
  rewrite Hout. reflexivity.
Qed.

Lemma request_without_address_nak_witness :
  let st := fst (Server.serve demo_server [(request macA [10; 0; 0; 100], 0)]) in
  Server.handleDHCPRequest st
    (Server.mkPkt macA [10; 0; 0; 100] Server.MessageTypeRequest [] [] "host") 5
  = (st, Some (Server.sendNak st
                 (Server.mkPkt macA [10; 0; 0; 100] Server.MessageTypeRequest [] [] "host"))).
Proof.
  exact (request_without_address_nak 4 (net.IPv4 10 0 0 1) (net.IPv4 10 0 0 1)
           (net.IPv4 10 0 0 100) (net.IPv4 10 0 0 102) (Some [255; 255; 255; 0])
           demo_server _
           (Server.mkPkt macA [10; 0; 0; 100] Server.MessageTypeRequest [] [] "host") 5
           eq_refl
           (reachable_serve demo_server _ demo_server (Server.reach_init demo_server))
           eq_refl eq_refl).
Defined.

(** ** The lease table under the handlers *)

Lemma other_clients_frame (s : Server.DHCPServer) (pkt : Server.DHCPv4)
    (now : time.Time) (other : string) :
  other <> client pkt ->
  Server.leases (fst (Server.handleDHCPRequest s pkt now)) !! other
  = Server.leases s !! other.
Proof.
  intros Hne.
  unfold Server.handleDHCPRequest, Server.handleDiscover, Server.handleRequest,
    Server.handleRelease.
  fold (client pkt).
  repeat match goal with
         | |- context [match ?x with _ => _ end] => destruct x
         end; cbn; try reflexivity.
  all: first [ by rewrite lookup_insert_ne | by rewrite lookup_delete_ne ].
Qed.


Lemma serve_other_clients key : forall inbox st,
  Forall (fun m => client (fst m) <> key) inbox ->
  Server.leases (fst (Server.serve st inbox)) !! key = Server.leases st !! key
  /\ same_config st (fst (Server.serve st inbox)).
Proof.
  induction inbox as [|[pkt now] inbox IH]; intros st Hall.
  - split; [reflexivity | repeat split].
  - apply Forall_cons in Hall as [Hne Hall]. cbn [fst] in Hne.
    cbn [Server.serve].
    pose proof (other_clients_frame st pkt now key) as Hframe.
    pose proof (handle_same_config st pkt now) as Hcfg.
    destruct (Server.handleDHCPRequest st pkt now) as [st' r]. cbn [fst] in *.
    specialize (IH st' Hall).
    destruct (Server.serve st' inbox) as [st'' rs]. cbn [fst] in *.
    destruct IH as [IH1 IH2]. split.
    + rewrite IH1. apply Hframe. congruence.
    + unfold same_config in *. intuition congruence.
Qed.

(** X6. Handling a packet touches no lease but the sender's: the entry of
    every other client is afterwards what it was before, and so it is after
    a whole inbox none of whose packets comes from that client. *)
Theorem other_clients_untouched (s : Server.DHCPServer) (pkt : Server.DHCPv4)
    (now : time.Time) (inbox : list (Server.DHCPv4 * time.Time)) (other : string) :
  (other <> client pkt ->
   Server.leases (fst (Server.handleDHCPRequest s pkt now)) !! other
   = Server.leases s !! other)
  /\ (Forall (fun m => client (fst m) <> other) inbox ->
      Server.leases (fst (Server.serve s inbox)) !! other = Server.leases s !! other).
Proof.
  split.
  - apply other_clients_frame.
  - intros Hall. by apply serve_other_clients.
Qed.

Lemma other_clients_untouched_witness :
  Server.leases
    (fst (Server.handleDHCPRequest
            (fst (Server.serve demo_server [(request macB [10; 0; 0; 101], 0)]))
            (request macA [10; 0; 0; 100]) 1))
    !! "02:00:00:00:00:0b"%string
  = Some (Server.mkLease [10; 0; 0; 101] macB day "host").
Proof.
  exact (proj1 (other_clients_untouched
           (fst (Server.serve demo_server [(request macB [10; 0; 0; 101], 0)]))
           (request macA [10; 0; 0; 100]) 1 [] "02:00:00:00:00:0b"%string)
           ltac:(discriminate)).
Defined.

Lemma handle_key_is_mac s pkt now :
  (forall key l, Server.leases s !! key = Some l ->
                 net.HardwareAddr_String (Server.MAC l) = key) ->
  forall key l,
    Server.leases (fst (Server.handleDHCPRequest s pkt now)) !! key = Some l ->
    net.HardwareAddr_String (Server.MAC l) = key.
Proof.
  intros Hinv key l.
  destruct (decide (key = client pkt)) as [->|Hne];
    [|rewrite other_clients_frame by assumption; apply Hinv].
  unfold Server.handleDHCPRequest, Server.handleDiscover, Server.handleRequest,
    Server.handleRelease, Server.ownLease.
  fold (client pkt).
  destruct (Server.MsgType pkt); try apply Hinv.
  - destruct (Server.activeLease _ _ _); [apply Hinv|].
    destruct (Server.findAvailableIP _ _); apply Hinv.
  - destruct (negb _); [apply Hinv|].
    destruct (Server.leases s !! client pkt) as [own|] eqn:Hown.
    + destruct (net.Equal _ _).
      * cbn. rewrite lookup_insert_eq. intros [= <-]. cbn. by apply Hinv.
      * destruct (Server.isIPAvailable _ _ _); [|apply Hinv].
        cbn. rewrite lookup_insert_eq. by intros [= <-].
    + destruct (Server.isIPAvailable _ _ _); [|apply Hinv].
      cbn. rewrite lookup_insert_eq. by intros [= <-].
  - destruct (Server.leases s !! client pkt) eqn:Hown; [|apply Hinv].
    cbn. rewrite lookup_delete_eq. discriminate.
Qed.

(** X7. Starting from an empty table, every lease is filed under the
    textual form of the hardware address it records: the key of an entry
    and its [MAC] field never disagree. *)
Theorem lease_key_is_its_mac (s0 s : Server.DHCPServer) (key : string)
    (l : Server.Lease) :
  Server.leases s0 = ∅ ->
  Server.reachable s0 s ->
  Server.leases s !! key = Some l ->
  net.HardwareAddr_String (Server.MAC l) = key.
Proof.
  intros Hempty Hreach. revert key l.
  induction Hreach as [|s pkt now _ IH].
  - intros key l. rewrite Hempty, lookup_empty. discriminate.
  - by apply handle_key_is_mac.
Qed.

Lemma lease_key_is_its_mac_witness :
  net.HardwareAddr_String macB = "02:00:00:00:00:0b"%string.
Proof.
  exact (lease_key_is_its_mac demo_server
           (fst (Server.serve demo_server stale_renewal))
           "02:00:00:00:00:0b"%string
           (Server.mkLease [10; 0; 0; 100] macB (2 * day) "host")
           eq_refl
           (reachable_serve demo_server _ demo_server (Server.reach_init demo_server))
           eq_refl).
Defined.

(** ** The allocator *)

(** X8. Lazy expiry only ever frees addresses: with the table unchanged, an
    address that is available at one instant is available at every later
    one. *)
Theorem availability_grows_with_time (s : Server.DHCPServer) (ip : net.IP)
    (now later : time.Time) :
  now <= later ->
  Server.isIPAvailable s ip now = true ->
  Server.isIPAvailable s ip later = true.
Proof.
  intros Hle. rewrite !isIPAvailable_true.
  intros Hav mac l Hl Heq. specialize (Hav mac l Hl Heq).
  unfold time.After in *. lia.
Qed.

Lemma availability_grows_with_time_witness :
  Server.isIPAvailable
    (fst (Server.serve demo_server [(request macA [10; 0; 0; 100], 0)]))
    [10; 0; 0; 100] (day + 7) = true.
Proof.
  apply (availability_grows_with_time _ _ day (day + 7)); [|reflexivity].
  vm_compute. discriminate.
Defined.

Lemma findAvailableIP_loop_first s now : forall pool ip,
  Server.findAvailableIP_loop s pool now = Some ip ->
  exists before after,
    pool = before ++ ip :: after
    /\ Forall (fun p => Server.isIPAvailable s p now = false) before
    /\ Server.isIPAvailable s ip now = true.
Proof.
  induction pool as [|p pool IH]; intros ip; cbn [Server.findAvailableIP_loop];
    [discriminate|].
  destruct (Server.isIPAvailable s p now) eqn:E.
  - intros [= <-]. exists [], pool. repeat split; [constructor | assumption].
  - intros H. destruct (IH ip H) as (before & after & -> & Hb & Ha).
    exists (p :: before), after. repeat split; [by constructor | assumption].
Qed.

(** X9. The allocator is first-fit: the address [findAvailableIP] returns
    is available and every pool address before it, in pool order, is held
    by an unexpired lease; it returns nothing exactly when every pool
    address is so held. *)
Theorem allocator_is_first_fit (s : Server.DHCPServer) (now : time.Time) :
  match Server.findAvailableIP s now with
  | Some ip =>
      exists before after,
        Server.ipPool s = before ++ ip :: after
        /\ Forall (fun p => Server.isIPAvailable s p now = false) before
        /\ Server.isIPAvailable s ip now = true
  | None =>
      forall p, p ∈ Server.ipPool s ->
        exists mac l, Server.leases s !! mac = Some l
                      /\ net.Equal (Server.IP l) p = true
                      /\ time.After (Server.ExpiryTime l) now = true
  end.
Proof.
  unfold Server.findAvailableIP.
  destruct (Server.findAvailableIP_loop s (Server.ipPool s) now) as [ip|] eqn:E.
  - by apply findAvailableIP_loop_first.
  - intros p Hp. apply isIPAvailable_false.
    by apply (proj1 (findAvailableIP_loop_None s (Server.ipPool s) now) E).
Qed.

(** ** REQUEST *)

Lemma set_leases_id s : Server.set_leases s (Server.leases s) = s.
Proof. by destruct s. Qed.

Lemma handleRequest_granted s pkt now :
  Server.MsgType pkt = Server.MessageTypeRequest ->
  granted s pkt now = true ->
  exists l,
    Server.handleDHCPRequest s pkt now
    = (Server.set_leases s (<[client pkt := l]> (Server.leases s)),
       Some (Server.sendAck s pkt (Server.RequestedIPAddress pkt)))
    /\ net.Equal (Server.IP l) (Server.RequestedIPAddress pkt) = true
    /\ Server.ExpiryTime l = now + Server.leaseDuration s.
Proof.
  intros Htype Hg. unfold granted in Hg. apply andb_true_iff in Hg as [Hpool Hok].
  unfold Server.handleDHCPRequest, Server.handleRequest. fold (client pkt).
  rewrite Htype, Hpool. cbn [negb].
  destruct (Server.ownLease s (client pkt) _) as [own|] eqn:Hown.
  - eexists. split; [reflexivity|]. cbn. split; [|reflexivity].
    unfold Server.ownLease in Hown.
    destruct (Server.leases s !! client pkt) as [l|]; [|discriminate].
    destruct (net.Equal (Server.IP l) _) eqn:E; [|discriminate].
    by injection Hown as <-.
  - rewrite Hok. eexists. split; [reflexivity|]. cbn.
    split; [apply Equal_refl | reflexivity].
Qed.

Lemma handleRequest_refused s pkt now :
  Server.MsgType pkt = Server.MessageTypeRequest ->
  granted s pkt now = false ->
  Server.handleDHCPRequest s pkt now = (s, Some (Server.sendNak s pkt)).
Proof.
  intros Htype Hg. unfold granted in Hg.
  unfold Server.handleDHCPRequest, Server.handleRequest. fold (client pkt).
  rewrite Htype.
  destruct (Server.isIPInPool s _); cbn [negb andb] in *; [|reflexivity].
  destruct (Server.ownLease s (client pkt) _); [discriminate|].
  by rewrite Hg.
Qed.

Lemma request_cases s pkt now :
  Server.MsgType pkt = Server.MessageTypeRequest ->
  if granted s pkt now then
    exists l,
      Server.handleDHCPRequest s pkt now
      = (Server.set_leases s (<[client pkt := l]> (Server.leases s)),
         Some (Server.sendAck s pkt (Server.RequestedIPAddress pkt)))
      /\ net.Equal (Server.IP l) (Server.RequestedIPAddress pkt) = true
      /\ Server.ExpiryTime l = now + Server.leaseDuration s
  else Server.handleDHCPRequest s pkt now = (s, Some (Server.sendNak s pkt)).
Proof.
  intros Htype. destruct (granted s pkt now) eqn:Hg.
  - by apply handleRequest_granted.
  - by apply handleRequest_refused.
Qed.

(** X10. Every REQUEST is answered, with ACK or with NAK.  It is ACKed, for
    exactly the address it asked for, when that address is in the pool and
    is either the one of the sender's own lease or held by no unexpired
    lease; the sender then holds a lease for an equal address that expires
    at now + leaseDuration, and the configuration is untouched.  In every
    other case it is NAKed and the server state stays as it was. *)
Theorem request_outcome (s : Server.DHCPServer) (pkt : Server.DHCPv4)
    (now : time.Time) :
  Server.MsgType pkt = Server.MessageTypeRequest ->
  let '(s', reply) := Server.handleDHCPRequest s pkt now in
  if granted s pkt now then
    reply = Some (Server.sendAck s pkt (Server.RequestedIPAddress pkt))
    /\ same_config s s'
    /\ exists l, Server.leases s' !! client pkt = Some l
         /\ net.Equal (Server.IP l) (Server.RequestedIPAddress pkt) = true
         /\ Server.ExpiryTime l = now + Server.leaseDuration s
  else
    reply = Some (Server.sendNak s pkt) /\ s' = s.
Proof.
  intros Htype. destruct (granted s pkt now) eqn:Hg.
  - destruct (handleRequest_granted s pkt now Htype Hg) as (l & -> & Heq & Hexp).
    split; [reflexivity|]. split; [repeat split|].
    exists l. cbn. rewrite lookup_insert_eq. auto.
  - rewrite (handleRequest_refused s pkt now Htype Hg). auto.
Qed.

Lemma request_outcome_witness :
  Server.handleDHCPRequest demo_server (request macA [10; 0; 0; 9]) 0
  = (demo_server, Some (Server.sendNak demo_server (request macA [10; 0; 0; 9]))).
Proof.
  pose proof (request_outcome demo_server (request macA [10; 0; 0; 9]) 0 eq_refl) as H.
  destruct (Server.handleDHCPRequest demo_server (request macA [10; 0; 0; 9]) 0)
    as [s' reply].
  change (granted demo_server (request macA [10; 0; 0; 9]) 0) with false in H.
  destruct H as [-> ->]. reflexivity.
Defined.

(** X11. A client without a lease that sends a REQUEST and then a RELEASE
    leaves the server exactly as it found it, whether the REQUEST was
    granted or refused. *)
Theorem release_undoes_request (s : Server.DHCPServer) (req rel : Server.DHCPv4)
    (now later : time.Time) :
  Server.MsgType req = Server.MessageTypeRequest ->
  Server.MsgType rel = Server.MessageTypeRelease ->
  client rel = client req ->
  Server.leases s !! client req = None ->
  fst (Server.handleDHCPRequest (fst (Server.handleDHCPRequest s req now)) rel later) = s.
Proof.
  intros Hreq Hrel Hsame Hnone.
  assert (Hrelease : forall st, Server.handleDHCPRequest st rel later
                                = (Server.handleRelease st rel (client req), None)).
  { intros st. unfold Server.handleDHCPRequest. rewrite Hrel.
    fold (client rel). by rewrite Hsame. }
  destruct (granted s req now) eqn:Hg.
  - destruct (handleRequest_granted s req now Hreq Hg) as (l & -> & _).
    cbn [fst]. rewrite Hrelease. cbn [fst].
    unfold Server.handleRelease. cbn. rewrite lookup_insert_eq.
    unfold Server.set_leases. cbn.
    rewrite delete_insert_id by assumption. by destruct s.
  - rewrite (handleRequest_refused s req now Hreq Hg). cbn [fst].
    rewrite Hrelease. cbn [fst]. unfold Server.handleRelease. by rewrite Hnone.
Qed.

Lemma release_undoes_request_witness :
  fst (Server.serve demo_server [(request macA [10; 0; 0; 100], 0); (release macA, 9)])
  = demo_server.
Proof.
  exact (release_undoes_request demo_server (request macA [10; 0; 0; 100])
           (release macA) 0 9 eq_refl eq_refl eq_refl eq_refl).
Defined.

(** ** What the server sends *)

(** X12. Whatever the server sends names its configured address as the
    server.  An OFFER or ACK carries an address and the configured subnet
    mask, router, DNS servers and lease time; a NAK carries no address and
    only the refusal message.  Nothing is ever sent for a RELEASE or for a
    message type the server does not handle, a DISCOVER is answered with an
    OFFER or not at all, a REQUEST with ACK or NAK. *)
Theorem replies_follow_the_protocol (s0 s : Server.DHCPServer) (pkt : Server.DHCPv4)
    (now : time.Time) :
  Server.reachable s0 s ->
  match snd (Server.handleDHCPRequest s pkt now) with
  | None => Server.MsgType pkt <> Server.MessageTypeRequest
  | Some r =>
      Server.rServerIP r = Server.serverIP s0
      /\ match Server.rType r with
         | Server.MessageTypeOffer =>
             Server.MsgType pkt = Server.MessageTypeDiscover
             /\ is_Some (Server.rYourIP r)
             /\ Server.rOptions r = Server.configOptions s0
         | Server.MessageTypeAck =>
             Server.MsgType pkt = Server.MessageTypeRequest
             /\ Server.rYourIP r = Some (Server.RequestedIPAddress pkt)
             /\ Server.rOptions r = Server.configOptions s0
         | Server.MessageTypeNak =>
             Server.MsgType pkt = Server.MessageTypeRequest
             /\ Server.rYourIP r = None
             /\ Server.rOptions r = [Server.OptMessage "Requested IP not available."]
         | _ => False
         end
  end.
Proof.
  intros Hreach.
  destruct (reachable_same_config s0 s Hreach) as (H1 & H2 & H3 & H4 & H5 & H6).
  assert (Hopts : Server.configOptions s = Server.configOptions s0)
    by (unfold Server.configOptions; congruence).
  unfold Server.handleDHCPRequest, Server.handleDiscover, Server.handleRequest.
  destruct (Server.MsgType pkt) eqn:Htype; cbn [snd]; try discriminate.
  - destruct (Server.activeLease _ _ _); cbn [snd].
    + cbn. repeat split; eauto.
    + destruct (Server.findAvailableIP _ _); cbn [snd]; [|discriminate].
      cbn. repeat split; eauto.
  - destruct (negb _); cbn [snd]; [cbn; repeat split; eauto|].
    destruct (Server.ownLease _ _ _); cbn [snd]; [cbn; repeat split; eauto|].
    destruct (Server.isIPAvailable _ _ _); cbn; repeat split; eauto.
Qed.

Lemma replies_follow_the_protocol_witness :
  Server.rServerIP (Server.sendNak demo_server (request macA [10; 0; 0; 9]))
  = net.IPv4 10 0 0 1.
Proof.
  exact (proj1 (replies_follow_the_protocol demo_server demo_server
                  (request macA [10; 0; 0; 9]) 0 (Server.reach_init demo_server))).
Defined.

Lemma offer_source s pkt now ip :
  Server.MsgType pkt = Server.MessageTypeDiscover ->
  offered (snd (Server.handleDHCPRequest s pkt now)) = Some ip ->
  (exists l, Server.leases s !! client pkt = Some l
             /\ time.After (Server.ExpiryTime l) now = true /\ ip = Server.IP l)
  \/ (Server.activeLease s (client pkt) now = None
      /\ ip ∈ Server.ipPool s /\ Server.isIPAvailable s ip now = true).
Proof.
  intros Htype.
  unfold Server.handleDHCPRequest, Server.handleDiscover. fold (client pkt).
  rewrite Htype.
  destruct (Server.activeLease s (client pkt) now) as [l|] eqn:Hact.
  - cbn. intros [= <-]. left. exists l.
    unfold Server.activeLease in Hact.
    destruct (Server.leases s !! client pkt) as [l'|]; [|discriminate].
    destruct (time.After (Server.ExpiryTime l') now) eqn:E; [|discriminate].
    injection Hact as <-. auto.
  - destruct (Server.findAvailableIP s now) as [found|] eqn:Hf; cbn; [|discriminate].
    intros [= <-]. right. split; [reflexivity|].
    by apply findAvailableIP_loop_Some in Hf.
Qed.

(** X13. The server never hands out an address outside its pool: from an
    empty table on, the address carried by any OFFER or ACK passes the pool
    membership test. *)
Theorem replies_carry_pool_addresses (s0 s : Server.DHCPServer) (pkt : Server.DHCPv4)
    (now : time.Time) (ip : net.IP) :
  Server.leases s0 = ∅ ->
  Server.reachable s0 s ->
  offered (snd (Server.handleDHCPRequest s pkt now)) = Some ip ->
  Server.isIPInPool s0 ip = true.
Proof.
  intros Hempty Hreach Hoff.
  pose proof (reachable_leases_in_pool s0 s Hempty Hreach) as Hinv.
  destruct (reachable_same_config s0 s Hreach) as (_ & _ & _ & _ & Hpool & _).
  destruct (Server.MsgType pkt) eqn:Htype;
    try (revert Hoff; unfold Server.handleDHCPRequest; rewrite Htype; discriminate).
  - destruct (offer_source s pkt now ip Htype Hoff)
      as [(l & Hl & _ & ->) | (_ & Hin & _)]; [eauto|].
    unfold Server.isIPInPool. rewrite <- Hpool.
    apply isIPInPool_loop_true. exists ip. split; [assumption | apply Equal_refl].
  - pose proof (request_cases s pkt now Htype) as Hcases.
    destruct (granted s pkt now) eqn:Hg.
    + destruct Hcases as (l & Hstep & _). rewrite Hstep in Hoff.
      cbn in Hoff. injection Hoff as <-.
      unfold granted in Hg. apply andb_true_iff in Hg as [Hin _].
      unfold Server.isIPInPool in *. by rewrite <- Hpool.
    + rewrite Hcases in Hoff. discriminate.
Qed.

Lemma replies_carry_pool_addresses_witness :
  Server.isIPInPool demo_server [10; 0; 0; 100] = true.
Proof.
  exact (replies_carry_pool_addresses demo_server demo_server
           (request macA [10; 0; 0; 100]) 0 [10; 0; 0; 100]
           eq_refl (Server.reach_init demo_server) eq_refl).
Defined.

(** ** How the exchanges compose *)

Lemma isIPAvailable_Equal s a b now :
  net.Equal a b = true -> Server.isIPAvailable s a now = Server.isIPAvailable s b now.
Proof.
  intros Hab.
  assert (Hba : net.Equal b a = true) by (by rewrite Equal_sym).
  destruct (Server.isIPAvailable s a now) eqn:Ea;
    destruct (Server.isIPAvailable s b now) eqn:Eb; try reflexivity.
  - apply isIPAvailable_false in Eb as (mac & l & Hl & Heq & Ht).
    rewrite isIPAvailable_true in Ea.
    rewrite (Ea mac l Hl (Equal_trans _ _ _ Heq Hba)) in Ht. discriminate.
  - apply isIPAvailable_false in Ea as (mac & l & Hl & Heq & Ht).
    rewrite isIPAvailable_true in Eb.
    rewrite (Eb mac l Hl (Equal_trans _ _ _ Heq Hab)) in Ht. discriminate.
Qed.

(** X14. A client whose REQUEST was ACKed is, for as long as the lease
    runs, re-offered that address on DISCOVER, whatever packets other
    clients have sent in the meantime and whatever else is free. *)
Theorem bound_client_is_reoffered (s : Server.DHCPServer) (req disc : Server.DHCPv4)
    (now later : time.Time) (between : list (Server.DHCPv4 * time.Time)) :
  Server.MsgType req = Server.MessageTypeRequest ->
  granted s req now = true ->
  Forall (fun m => client (fst m) <> client req) between ->
  Server.MsgType disc = Server.MessageTypeDiscover ->
  client disc = client req ->
  later < now + Server.leaseDuration s ->
  let s1 := fst (Server.handleDHCPRequest s req now) in
  let s2 := fst (Server.serve s1 between) in
  exists ip,
    Server.handleDHCPRequest s2 disc later = (s2, Some (Server.sendOffer s2 disc ip))
    /\ net.Equal ip (Server.RequestedIPAddress req) = true.
Proof.
  intros Hreq Hg Hothers Hdisc Hsame Hlater s1 s2.
  destruct (handleRequest_granted s req now Hreq Hg) as (l & Hstep & Heq & Hexp).
  assert (Hl : Server.leases s2 !! client req = Some l).
  { subst s2 s1. rewrite (proj1 (serve_other_clients (client req) between _ Hothers)).
    rewrite Hstep. cbn. apply lookup_insert_eq. }
  exists (Server.IP l). split; [|assumption].
  unfold Server.handleDHCPRequest, Server.handleDiscover, Server.activeLease.
  fold (client disc). rewrite Hdisc, Hsame, Hl.
  unfold time.After. rewrite Hexp.
  destruct (Z.ltb_spec later (now + Server.leaseDuration s)); [reflexivity | lia].
Qed.

Lemma bound_client_is_reoffered_witness :
  exists ip,
    snd (Server.handleDHCPRequest
           (fst (Server.serve demo_server
                   [(request macA [10; 0; 0; 101], 0); (request macB [10; 0; 0; 100], 1)]))
           (discover macA) 50)
    = Some (Server.sendOffer demo_server (discover macA) ip)
    /\ net.Equal ip [10; 0; 0; 101] = true.
Proof.
  destruct (bound_client_is_reoffered demo_server (request macA [10; 0; 0; 101])
              (discover macA) 0 50 [(request macB [10; 0; 0; 100], 1)]
              eq_refl eq_refl
              ltac:(repeat constructor; discriminate)
              eq_refl eq_refl eq_refl) as (ip & Hstep & Heq).
  exists ip. split; [|exact Heq].
  exact (f_equal snd Hstep).
Defined.

(** X15. An offer can be taken up: from an empty table on, when a DISCOVER
    is answered with an OFFER, a REQUEST of the same client for that address
    (in the 4-byte or the 16-byte form), handled next at the same instant,
    is ACKed. *)
Theorem offered_address_is_granted (s0 s : Server.DHCPServer)
    (disc req : Server.DHCPv4) (now : time.Time) (ip : net.IP) :
  Server.leases s0 = ∅ ->
  Server.reachable s0 s ->
  Server.MsgType disc = Server.MessageTypeDiscover ->
  offered (snd (Server.handleDHCPRequest s disc now)) = Some ip ->
  Server.MsgType req = Server.MessageTypeRequest ->
  client req = client disc ->
  net.Equal (Server.RequestedIPAddress req) ip = true ->
  fst (Server.handleDHCPRequest s disc now) = s
  /\ snd (Server.handleDHCPRequest s req now)
     = Some (Server.sendAck s req (Server.RequestedIPAddress req)).
Proof.
  intros Hempty Hreach Hdisc Hoff Hreq Hsame Heq.
  split; [apply readonly_keeps_state; unfold readonly; by rewrite Hdisc|].
  pose proof (reachable_leases_in_pool s0 s Hempty Hreach) as Hinv.
  destruct (reachable_same_config s0 s Hreach) as (_ & _ & _ & _ & Hpool & _).
  assert (Hreq_ip : net.Equal ip (Server.RequestedIPAddress req) = true)
    by (by rewrite Equal_sym).
  destruct (offer_source s disc now ip Hdisc Hoff)
    as [(l & Hl & _ & ->) | (Hnone & Hin & Hav)].
  - assert (Hg : granted s req now = true).
    { unfold granted, Server.ownLease. rewrite Hsame, Hl, Hreq_ip, andb_true_r.
      apply isIPInPool_Equal with (Server.IP l); [assumption|].
      specialize (Hinv _ _ Hl). unfold Server.isIPInPool in *. by rewrite Hpool. }
    destruct (handleRequest_granted s req now Hreq Hg) as (l' & -> & _). reflexivity.
  - assert (Hg : granted s req now = true).
    { unfold granted. apply andb_true_iff. split.
      - apply isIPInPool_Equal with ip; [assumption|].
        unfold Server.isIPInPool. apply isIPInPool_loop_true.
        exists ip. split; [assumption | apply Equal_refl].
      - destruct (Server.ownLease s (client req) _); [reflexivity|].
        by rewrite (isIPAvailable_Equal s _ ip now Heq). }
    destruct (handleRequest_granted s req now Hreq Hg) as (l' & -> & _). reflexivity.
Qed.

Lemma offered_address_is_granted_witness :
  snd (Server.handleDHCPRequest demo_server (request macA [10; 0; 0; 100]) 0)
  = Some (Server.sendAck demo_server (request macA [10; 0; 0; 100]) [10; 0; 0; 100]).
Proof.
  exact (proj2 (offered_address_is_granted demo_server demo_server (discover macA)
                  (request macA [10; 0; 0; 100]) 0 (net.IPv4 10 0 0 100)
                  eq_refl (Server.reach_init demo_server)
                  eq_refl eq_refl eq_refl eq_refl eq_refl)).
Defined.

(** ** Mutual exclusion, where it does hold *)

Lemma serve_exclusive : forall inbox s t,
  exclusive s t ->
  monotone t inbox = true ->
  no_stale_renewal s inbox = true ->
  exclusive (fst (Server.serve s inbox)) (end_time t inbox).
Proof.
  induction inbox as [|[pkt now] inbox IH]; intros s t Hex Hmono Hfresh; [exact Hex|].
  cbn [monotone] in Hmono. apply andb_true_iff in Hmono as [Hle Hmono].
  cbn [no_stale_renewal] in Hfresh. apply andb_true_iff in Hfresh as [Hnow Hfresh].
  apply Z.leb_le in Hle.
  assert (Hstep : exclusive (fst (Server.handleDHCPRequest s pkt now)) now).
  { apply handle_exclusive; [by apply exclusive_later with t|].
    intros l Htype Hl Heq. rewrite Htype in Hnow.
    unfold Server.ownLease, client in Hnow. by rewrite Hl, Heq in Hnow. }
  specialize (IH _ now Hstep Hmono Hfresh).
  cbn [Server.serve]. unfold end_time in *. cbn [foldl snd].
  destruct (Server.handleDHCPRequest s pkt now) as [s' r]. cbn [fst] in *.
  destruct (Server.serve s' inbox). exact IH.
Qed.

(** X16. As long as no client renews a lease that has already expired, two
    unexpired leases of distinct clients are never for the same address:
    from an empty table, after any inbox handled in time order that holds no
    such stale renewal, mutual exclusion holds at the time of the last
    packet and at every later time. *)
Theorem exclusive_without_stale_renewal (s0 : Server.DHCPServer)
    (inbox : list (Server.DHCPv4 * time.Time)) (t0 t : time.Time) :
  Server.leases s0 = ∅ ->
  monotone t0 inbox = true ->
  no_stale_renewal s0 inbox = true ->
  end_time t0 inbox <= t ->
  exclusive (fst (Server.serve s0 inbox)) t.
Proof.
  intros Hempty Hmono Hfresh Hle.
  apply exclusive_later with (end_time t0 inbox); [assumption|].
  apply serve_exclusive; [|assumption..].
  intros m1 m2 l1 l2 _ H1. rewrite Hempty, lookup_empty in H1. discriminate.
Qed.

Lemma exclusive_without_stale_renewal_witness :
  exclusive (fst (Server.serve demo_server busy_inbox)) 11.
Proof.
  apply (exclusive_without_stale_renewal demo_server busy_inbox 0 11);
    reflexivity || lia.
Defined.

(** X17. In a state where mutual exclusion holds, the RELEASE of an
    unexpired lease frees its address at once: the sender's lease is gone,
    nothing is sent, and the availability check for the address succeeds. *)
Theorem release_frees_when_exclusive (s : Server.DHCPServer) (pkt : Server.DHCPv4)
    (now : time.Time) (lease : Server.Lease) :
  exclusive s now ->
  Server.MsgType pkt = Server.MessageTypeRelease ->
  Server.leases s !! client pkt = Some lease ->
  time.After (Server.ExpiryTime lease) now = true ->
  let '(s', reply) := Server.handleDHCPRequest s pkt now in
  Server.leases s' !! client pkt = None
  /\ reply = None
  /\ Server.isIPAvailable s' (Server.IP lease) now = true
  /\ same_config s s'.
Proof.
  intros Hex Htype Hlease Hlive.
  destruct (release_frees_unshared s pkt now lease Htype Hlease) as (H1 & H2 & H3).
  { intros other l Hne Hl Heq.
    destruct (time.After (Server.ExpiryTime l) now) eqn:E; [|reflexivity].
    rewrite (Hex other (client pkt) l lease Hne Hl Hlease E Hlive) in Heq.
    discriminate. }
  pose proof (handle_same_config s pkt now) as Hcfg.
  destruct (Server.handleDHCPRequest s pkt now) as [s' reply].
  cbn [fst snd] in *. auto.
Qed.

Lemma release_frees_when_exclusive_witness :
  Server.isIPAvailable
    (fst (Server.serve demo_server [(request macA [10; 0; 0; 100], 0); (release macA, 5)]))
    [10; 0; 0; 100] 5 = true.
Proof.
  pose proof (release_frees_when_exclusive
                (fst (Server.serve demo_server [(request macA [10; 0; 0; 100], 0)]))
                (release macA) 5
                (Server.mkLease [10; 0; 0; 100] macA day "host")) as H.
  cbv zeta in H.
  destruct (Server.handleDHCPRequest
              (fst (Server.serve demo_server [(request macA [10; 0; 0; 100], 0)]))
              (release macA) 5) as [s' reply] eqn:E.
  assert (Hs : fst (Server.serve demo_server
                      [(request macA [10; 0; 0; 100], 0); (release macA, 5)]) = s').
  { vm_compute in E. injection E as <- _. reflexivity. }
  rewrite Hs. apply H; try reflexivity.
  apply (exclusive_later _ 0 5); [lia|].
  apply (serve_exclusive [(request macA [10; 0; 0; 100], 0)] demo_server 0);
    try reflexivity.
  intros m1 m2 l1 l2 _ H1. vm_compute in H1. discriminate.
Defined.

(** ** Lease-table keys *)

Lemma unhex_hexAt u : 0 <= u < 16 -> unhex (net.hexAt u) = u.
Proof.
  intros Hu.
  assert (H : forall n : nat, (n < 16)%nat ->
                unhex (net.hexAt (Z.of_nat n)) = Z.of_nat n).
  { intros n Hn. do 16 (destruct n as [|n]; [reflexivity|]). lia. }
  rewrite <- (Z2Nat.id u) by lia. apply H. lia.
Qed.

Lemma byte_of_nibbles b :
  0 <= b < 256 ->
  0 <= Z.shiftr b 4 < 16 /\ 0 <= Z.land b 15 < 16
  /\ b = 16 * Z.shiftr b 4 + Z.land b 15.
Proof.
  intros Hb.
  rewrite Z.shiftr_div_pow2 by lia.
  change 15 with (Z.ones 4). rewrite Z.land_ones by lia.
  change (2 ^ 4) with 16.
  pose proof (Z.div_mod b 16 ltac:(lia)).
  pose proof (Z.mod_pos_bound b 16 ltac:(lia)).
  assert (0 <= b / 16) by (apply Z.div_pos; lia).
  assert (b / 16 < 16) by (apply Z.div_lt_upper_bound; lia).
  lia.
Qed.

Lemma hwBytes_inj a : forall b first,
  is_bytes a -> is_bytes b ->
  net.hwBytes first a = net.hwBytes first b -> a = b.
Proof.
  induction a as [|x a IH]; intros [|y b] first Ha Hb H.
  - reflexivity.
  - destruct first; discriminate.
  - destruct first; discriminate.
  - apply Forall_cons in Ha as [Hx Ha]. apply Forall_cons in Hb as [Hy Hb].
    cbn [net.hwBytes] in H.
    assert (Hd : net.hexAt (Z.shiftr x 4) = net.hexAt (Z.shiftr y 4)
                 /\ net.hexAt (Z.land x 15) = net.hexAt (Z.land y 15)
                 /\ net.hwBytes false a = net.hwBytes false b).
    { destruct first; cbn [app] in H; injection H; auto. }
    destruct Hd as (H1 & H2 & H3).
    destruct (byte_of_nibbles x Hx) as (Hx1 & Hx2 & Ex).
    destruct (byte_of_nibbles y Hy) as (Hy1 & Hy2 & Ey).
    apply (f_equal unhex) in H1, H2.
    rewrite !unhex_hexAt in H1, H2 by assumption.
    f_equal; [lia|]. by apply (IH b false).
Qed.

(** X18. The lease table is keyed by the textual form of the hardware
    address, and that form identifies the address: two clients whose
    hardware addresses differ in any byte, or in length, have different
    keys and so never share or overwrite a lease entry. *)
Theorem distinct_macs_have_distinct_keys (p q : Server.DHCPv4) :
  is_bytes (Server.ClientHWAddr p) -> is_bytes (Server.ClientHWAddr q) ->
  Server.ClientHWAddr p <> Server.ClientHWAddr q ->
  client p <> client q
  /\ forall s now,
       Server.leases (fst (Server.handleDHCPRequest s p now)) !! client q
       = Server.leases s !! client q.
Proof.
  intros Hp Hq Hne.
  assert (Hkey : client p <> client q).
  { unfold client, net.HardwareAddr_String. intros H. apply Hne.
    apply (f_equal String.list_ascii_of_string) in H.
    rewrite !String.list_ascii_of_string_of_list_ascii in H.
    by apply hwBytes_inj in H. }
  split; [assumption|].
  intros s now. apply other_clients_frame. congruence.
Qed.

Lemma distinct_macs_have_distinct_keys_witness :
  Server.leases
    (fst (Server.handleDHCPRequest demo_server (request macA [10; 0; 0; 100]) 0))
    !! client (request macB [10; 0; 0; 100])
  = Server.leases demo_server !! client (request macB [10; 0; 0; 100]).
Proof.
  refine (proj2 (distinct_macs_have_distinct_keys (request macA [10; 0; 0; 100])
                   (request macB [10; 0; 0; 100]) _ _ _) demo_server 0).
  - repeat constructor; lia.
  - repeat constructor; lia.
  - discriminate.
Defined.

(** ** Expiry times *)

Lemma handle_expiry_bound s pkt now :
  (forall key l, Server.leases s !! key = Some l ->
                 Server.ExpiryTime l <= now + Server.leaseDuration s) ->
  forall key l,
    Server.leases (fst (Server.handleDHCPRequest s pkt now)) !! key = Some l ->
    Server.ExpiryTime l <= now + Server.leaseDuration s.
Proof.
  intros Hinv key l.
  destruct (decide (key = client pkt)) as [->|Hne];
    [|rewrite other_clients_frame by assumption; apply Hinv].
  destruct (Server.MsgType pkt) eqn:Htype;
    try (rewrite readonly_keeps_state by (unfold readonly; by rewrite Htype);
         apply Hinv).
  - pose proof (request_cases s pkt now Htype) as Hcases.
    destruct (granted s pkt now).
    + destruct Hcases as (l' & -> & _ & Hexp). cbn.
      rewrite lookup_insert_eq. intros [= <-]. lia.
    + rewrite Hcases. apply Hinv.
  - unfold Server.handleDHCPRequest, Server.handleRelease. rewrite Htype.
    fold (client pkt).
    destruct (Server.leases s !! client pkt) eqn:Hown; cbn [fst]; [|apply Hinv].
    cbn. rewrite lookup_delete_eq. discriminate.
Qed.

(** X19. No lease outlives the traffic by more than the lease time: from an
    empty table, after an inbox handled in time order, every stored lease
    expires no later than leaseDuration after the last packet. *)
Theorem leases_expire_within_lease_time (s0 : Server.DHCPServer)
    (inbox : list (Server.DHCPv4 * time.Time)) (t0 : time.Time)
    (key : string) (l : Server.Lease) :
  Server.leases s0 = ∅ ->
  monotone t0 inbox = true ->
  Server.leases (fst (Server.serve s0 inbox)) !! key = Some l ->
  Server.ExpiryTime l <= end_time t0 inbox + Server.leaseDuration s0.
Proof.
  intros Hempty Hmono.
  assert (Hgen : forall inbox s t,
             (forall key l, Server.leases s !! key = Some l ->
                            Server.ExpiryTime l <= t + Server.leaseDuration s) ->
             monotone t inbox = true ->
             forall key l,
               Server.leases (fst (Server.serve s inbox)) !! key = Some l ->
               Server.ExpiryTime l <= end_time t inbox + Server.leaseDuration s).
  { clear. induction inbox as [|[pkt now] inbox IH]; intros s t Hinv Hmono; [exact Hinv|].
    cbn [monotone] in Hmono. apply andb_true_iff in Hmono as [Hle Hmono].
    apply Z.leb_le in Hle.
    assert (Hnow : forall key l, Server.leases s !! key = Some l ->
                     Server.ExpiryTime l <= now + Server.leaseDuration s)
      by (intros key l Hl; specialize (Hinv key l Hl); lia).
    pose proof (handle_expiry_bound s pkt now Hnow) as Hstep.
    destruct (handle_same_config s pkt now) as (_ & _ & _ & _ & _ & Hdur).
    cbn [Server.serve]. unfold end_time in *. cbn [foldl snd].
    destruct (Server.handleDHCPRequest s pkt now) as [s' r]. cbn [fst] in *.
    rewrite <- Hdur in Hstep. specialize (IH s' now Hstep Hmono).
    rewrite Hdur in IH.
    destruct (Server.serve s' inbox). exact IH. }
  apply Hgen; [|assumption].
  intros k l'. rewrite Hempty, lookup_empty. discriminate.
Qed.

Lemma leases_expire_within_lease_time_witness :
  2 * day + 1 <= end_time 0 stale_renewal + Server.leaseDuration demo_server.
Proof.
  exact (leases_expire_within_lease_time demo_server stale_renewal 0
           "02:00:00:00:00:0a"%string
           (Server.mkLease [10; 0; 0; 100] macA (2 * day + 1) "host")
           eq_refl eq_refl eq_refl).
Defined.

(** ** The adversarial server's lease map *)

Section RogueFacts.

Variable IPAdd : net.IP -> Z -> net.IP.
Variable IPRange : net.IP -> net.IP -> Z.

Lemma rogue_step h req msgType options :
  let h' := fst (Rogue.ServeDHCP IPAdd IPRange h req msgType options) in
  Rogue.config h' = Rogue.config h
  /\ Rogue.leaseDB h'
     = match msgType with
       | Rogue.Discover =>
           <[rogue_client req := midpoint IPAdd IPRange (Rogue.config h)]> (Rogue.leaseDB h)
       | _ => Rogue.leaseDB h
       end.
Proof.
  unfold Rogue.ServeDHCP. destruct msgType; cbn; auto.
  destruct (match options !! Rogue.OptionServerIdentifier with
            | Some serverIdent => _ | None => false end); cbn; auto.
Qed.

Lemma rogue_run_inv (P : Rogue.RogueDHCPHandler -> Prop) :
  (forall h req msgType options,
     P h -> P (fst (Rogue.ServeDHCP IPAdd IPRange h req msgType options))) ->
  forall inbox h, P h -> P (fst (rogue_run IPAdd IPRange h inbox)).
Proof.
  intros Hstep. induction inbox as [|[[req msgType] options] inbox IH]; intros h Hh;
    [exact Hh|].
  cbn [rogue_run].
  specialize (Hstep h req msgType options Hh).
  destruct (Rogue.ServeDHCP IPAdd IPRange h req msgType options) as [h' r].
  specialize (IH h' Hstep). destruct (rogue_run IPAdd IPRange h' inbox). exact IH.
Qed.

(** X20. The adversarial server's lease map only ever grows, and only
    DISCOVER writes to it: a DISCOVER sets the sender's entry, every other
    packet leaves the handler as it is, the configuration never changes, no
    entry is ever removed or expires, and no packet touches an entry of a
    client other than its sender. *)
Theorem rogue_map_only_grows (h : Rogue.RogueDHCPHandler) (req : Rogue.Packet)
    (msgType : Rogue.MessageType) (options : gmap Z (list Z)) :
  let h' := fst (Rogue.ServeDHCP IPAdd IPRange h req msgType options) in
  Rogue.config h' = Rogue.config h
  /\ (msgType <> Rogue.Discover -> h' = h)
  /\ (msgType = Rogue.Discover -> is_Some (Rogue.leaseDB h' !! rogue_client req))
  /\ (forall mac, is_Some (Rogue.leaseDB h !! mac) -> is_Some (Rogue.leaseDB h' !! mac))
  /\ (forall mac, mac <> rogue_client req ->
        Rogue.leaseDB h' !! mac = Rogue.leaseDB h !! mac).
Proof.
  destruct (rogue_step h req msgType options) as [Hcfg Hdb].
  cbv zeta. split; [assumption|]. split; [|split; [|split]].
  - intros Hne. unfold Rogue.ServeDHCP. destruct msgType; try reflexivity; [congruence|].
    destruct (match options !! Rogue.OptionServerIdentifier with
              | Some serverIdent => _ | None => false end); reflexivity.
  - intros ->. rewrite Hdb, lookup_insert_eq. eauto.
  - intros mac Hsome. rewrite Hdb. destruct msgType; try assumption.
    rewrite lookup_insert. case_decide; eauto.
  - intros mac Hne. rewrite Hdb. destruct msgType; try reflexivity.
    by rewrite lookup_insert_ne.
Qed.

(** X21. Starting from an empty lease map, every address the adversarial
    server has recorded, for whatever client and after whatever packets, is
    the one midpoint address of its configured range. *)
Theorem rogue_records_only_the_midpoint (h0 : Rogue.RogueDHCPHandler)
    (inbox : list (Rogue.Packet * Rogue.MessageType * gmap Z (list Z)))
    (mac : string) (ip : net.IP) :
  Rogue.leaseDB h0 = ∅ ->
  Rogue.leaseDB (fst (rogue_run IPAdd IPRange h0 inbox)) !! mac = Some ip ->
  ip = midpoint IPAdd IPRange (Rogue.config h0).
Proof.
  intros Hempty.
  pose proof (rogue_run_inv
    (fun h => Rogue.config h = Rogue.config h0
              /\ forall mac ip, Rogue.leaseDB h !! mac = Some ip ->
                                ip = midpoint IPAdd IPRange (Rogue.config h0))) as Hinv.
  cbv beta in Hinv.
  intros Hl. eapply Hinv; [| |exact Hl].
  - clear. intros h req msgType options [Hcfg Hdb].
    destruct (rogue_step h req msgType options) as [Hcfg' Hdb'].
    split; [congruence|]. intros mac ip. rewrite Hdb'.
    destruct msgType; try apply Hdb.
    rewrite lookup_insert. case_decide; [|apply Hdb].
    intros [= <-]. by rewrite Hcfg.
  - split; [reflexivity|]. intros m i. rewrite Hempty, lookup_empty. discriminate.
Qed.

(** X22. Once a client has sent a DISCOVER, whatever packets follow, each of
    its REQUESTs that does not name another server is ACKed with the
    midpoint address, whatever address the REQUEST asks for. *)
Theorem rogue_ack_ignores_the_request (h : Rogue.RogueDHCPHandler)
    (disc req : Rogue.Packet) (o1 o2 : gmap Z (list Z))
    (between : list (Rogue.Packet * Rogue.MessageType * gmap Z (list Z))) :
  rogue_client req = rogue_client disc ->
  match o2 !! Rogue.OptionServerIdentifier with
  | Some serverIdent => net.Equal serverIdent (Rogue.ServerIP (Rogue.config h)) = true
  | None => True
  end ->
  let h1 := fst (Rogue.ServeDHCP IPAdd IPRange h disc Rogue.Discover o1) in
  let h2 := fst (rogue_run IPAdd IPRange h1 between) in
  exists reply,
    Rogue.ServeDHCP IPAdd IPRange h2 req Rogue.Request o2 = (h2, Some reply)
    /\ Rogue.replyType reply = Rogue.ACK
    /\ Rogue.replyYIAddr reply = midpoint IPAdd IPRange (Rogue.config h)
    /\ Rogue.replyServerId reply = Rogue.ServerIP (Rogue.config h).
Proof.
  intros Hsame Hident h1 h2.
  assert (Hinv : Rogue.config h2 = Rogue.config h
                 /\ Rogue.leaseDB h2 !! rogue_client disc
                    = Some (midpoint IPAdd IPRange (Rogue.config h))).
  { subst h2.
    apply (rogue_run_inv
      (fun x => Rogue.config x = Rogue.config h
                /\ Rogue.leaseDB x !! rogue_client disc
                   = Some (midpoint IPAdd IPRange (Rogue.config h)))).
    - clear. intros x r mt o [Hcfg Hdb].
      destruct (rogue_step x r mt o) as [Hcfg' Hdb'].
      split; [congruence|]. rewrite Hdb'. destruct mt; try assumption.
      rewrite lookup_insert. case_decide; [by rewrite Hcfg | assumption].
    - subst h1. cbn. split; [reflexivity | apply lookup_insert_eq]. }
  destruct Hinv as [Hcfg Hdb].
  unfold Rogue.ServeDHCP. fold (rogue_client req). rewrite Hsame, Hdb, Hcfg.
  destruct (o2 !! Rogue.OptionServerIdentifier) as [serverIdent|].
  - rewrite Hident. cbn. eexists. repeat split.
  - cbn. eexists. repeat split.
Qed.

End RogueFacts.

Lemma rogue_records_only_the_midpoint_witness :
  [172; 16; 1; 175] = midpoint Rogue.dhcp4_IPAdd Rogue.dhcp4_IPRange rogue_config.
Proof.
  exact (rogue_records_only_the_midpoint Rogue.dhcp4_IPAdd Rogue.dhcp4_IPRange
           rogue_start
           [(Rogue.mkPacket macA [], Rogue.Discover, ∅);
            (Rogue.mkPacket macB [], Rogue.Discover, ∅)]
           "02:00:00:00:00:0b"%string [172; 16; 1; 175] eq_refl eq_refl).
Defined.

Lemma rogue_ack_ignores_the_request_witness :
  exists reply,
    rogue_serve
      (fst (rogue_serve rogue_start (Rogue.mkPacket macA []) Rogue.Discover ∅))
      (Rogue.mkPacket macA []) Rogue.Request (<[50 := [8; 8; 8; 8]]> ∅)
    = (fst (rogue_serve rogue_start (Rogue.mkPacket macA []) Rogue.Discover ∅),
       Some reply)
    /\ Rogue.replyYIAddr reply = [172; 16; 1; 175].
Proof.
  destruct (rogue_ack_ignores_the_request Rogue.dhcp4_IPAdd Rogue.dhcp4_IPRange
              rogue_start (Rogue.mkPacket macA []) (Rogue.mkPacket macA []) ∅
              (<[50 := [8; 8; 8; 8]]> ∅) [] eq_refl ltac:(vm_compute; exact I))
    as (reply & Hstep & _ & Hip & _).
  exists reply. split; [exact Hstep | exact Hip].
Defined.

(** ** Membership in the pool of an IPv4 range *)

Lemma be_bytes4_inj m n :
  0 <= m < 2 ^ 32 -> 0 <= n < 2 ^ 32 -> be_bytes 4 m = be_bytes 4 n -> m = n.
Proof.
  intros Hm Hn H. apply (f_equal be_value) in H.
  rewrite !be_value_be_bytes in H.
  change (256 ^ Z.of_nat 4) with (2 ^ 32) in H.
  by rewrite !Z.mod_small in H by assumption.
Qed.

Lemma Equal_ipv4_4 m n :
  0 <= m < 2 ^ 32 -> 0 <= n < 2 ^ 32 ->
  net.Equal (ipv4_of_Z m) (be_bytes 4 n) = true <-> m = n.
Proof.
  intros Hm Hn. rewrite Equal_canon. unfold net.canon, ipv4_of_Z.
  rewrite length_app, !length_be_bytes. cbn [length Nat.add Nat.eqb net.IPv4len].
  split.
  - intros H. apply app_inv_head in H. by apply be_bytes4_inj.
  - by intros ->.
Qed.

(** X23. For a server built from the IPv4 range [s .. e], the pool test of
    a 4-byte address, as a REQUEST carries it, succeeds exactly when the
    address lies between [s] and [e] inclusive and is not the server's
    own. *)
Theorem pool_membership_is_range (fuel : nat) (server router : net.IP)
    (mask : option (list Z)) (s e n : Z) (srv : Server.DHCPServer) :
  0 <= s < 2 ^ 32 -> 0 <= e < 2 ^ 32 -> 0 <= n < 2 ^ 32 ->
  Server.NewDHCPServer fuel server mask router (ipv4_of_Z s) (ipv4_of_Z e)
  = Server.Ok srv ->
  Server.isIPInPool srv (be_bytes 4 n) = true
  <-> s <= n <= e /\ net.Equal (be_bytes 4 n) server = false.
Proof.
  intros Hs He Hn Hnew.
  apply NewDHCPServer_Ok in Hnew as (pool & Hloop & Hpool & _).
  apply poolLoop_sound in Hloop; [|assumption..]. subst pool.
  unfold Server.isIPInPool. rewrite Hpool, isIPInPool_loop_true.
  unfold enumerate. split.
  - intros (p & Hin & Heq).
    apply list_elem_of_filter in Hin as [Hne Hin].
    apply list_elem_of_fmap in Hin as (m & -> & Hm).
    apply elem_of_seqZ in Hm.
    apply Equal_ipv4_4 in Heq; [|lia|assumption]. subst m.
    split; [lia|].
    destruct (net.Equal (be_bytes 4 n) server) eqn:E; [|reflexivity].
    assert (Hback : net.Equal (ipv4_of_Z n) (be_bytes 4 n) = true)
      by (by apply Equal_ipv4_4).
    rewrite (Equal_trans _ _ _ Hback E) in Hne. discriminate.
  - intros [Hrange Hne]. exists (ipv4_of_Z n).
    assert (Hback : net.Equal (ipv4_of_Z n) (be_bytes 4 n) = true)
      by (by apply Equal_ipv4_4).
    split; [|assumption].
    apply list_elem_of_filter. split.
    + destruct (net.Equal (ipv4_of_Z n) server) eqn:E; [|reflexivity].
      rewrite Equal_sym in Hback.
      rewrite (Equal_trans _ _ _ Hback E) in Hne. discriminate.
    + apply list_elem_of_fmap. exists n. split; [reflexivity|].
      apply elem_of_seqZ. lia.
Qed.

Lemma pool_membership_is_range_witness :
  Server.isIPInPool demo_server [10; 0; 0; 103] = true
  <-> quad 10 0 0 100 <= quad 10 0 0 103 <= quad 10 0 0 102
      /\ net.Equal [10; 0; 0; 103] (net.IPv4 10 0 0 1) = false.
Proof.
  apply (pool_membership_is_range 4 (net.IPv4 10 0 0 1) (net.IPv4 10 0 0 1)
           (Some [255; 255; 255; 0]) (quad 10 0 0 100) (quad 10 0 0 102)
           (quad 10 0 0 103) demo_server).
  - vm_compute. split; [discriminate | reflexivity].
  - vm_compute. split; [discriminate | reflexivity].
  - vm_compute. split; [discriminate | reflexivity].
  - reflexivity.
Defined.

(** ** Renewal *)

(** C5, as stated, fails when the requested address is the client's own
    address field.  A holds 10.0.0.100 until one day; its REQUEST at 5 ns
    names 10.0.0.100 as its current address and carries no requested-address
    option, as a renewing client's does.  The server reads that option only:
    the REQUEST is NAKed and the lease keeps the expiry it had. *)
Lemma renewal_by_ciaddr_is_refused :
  let s := fst (Server.serve demo_server [(request macA [10; 0; 0; 100], 0)]) in
  let pkt := Server.mkPkt macA [10; 0; 0; 100] Server.MessageTypeRequest [] [] "host" in
  let lease := Server.mkLease [10; 0; 0; 100] macA day "host" in
  Server.leases s !! client pkt = Some lease
  /\ Server.RequestedIPAddress pkt = []
  /\ net.Equal (Server.IP lease) (Server.ClientIPAddr pkt) = true
  /\ Server.handleDHCPRequest s pkt 5 = (s, Some (Server.sendNak s pkt))
  /\ Server.leases (fst (Server.handleDHCPRequest s pkt 5)) !! client pkt = Some lease
  /\ Server.ExpiryTime lease = day
  /\ day < 5 + Server.leaseDuration s.
Proof. vm_compute. repeat split. Qed.

(** C5, amended.  Renewal: in a state reached from an empty lease table, a
    REQUEST whose requested-address option equals the address of the lease
    the client holds, expired or not, sets that lease's expiry to
    now + leaseDuration, keeps its address (and the rest of the table), and
    is answered with an ACK for the requested address.  The requested
    address is that option alone: where no pool address is nil, a REQUEST
    without the option is answered with NAK and changes nothing, whatever
    the client reports as its current address. *)
Theorem renewal_extends_lease (s0 s : Server.DHCPServer) (pkt : Server.DHCPv4)
    (now : time.Time) (lease : Server.Lease) :
  Server.leases s0 = ∅ ->
  Server.reachable s0 s ->
  Server.MsgType pkt = Server.MessageTypeRequest ->
  Server.leases s !! net.HardwareAddr_String (Server.ClientHWAddr pkt) = Some lease ->
  net.Equal (Server.IP lease) (Server.RequestedIPAddress pkt) = true ->
  let mac := net.HardwareAddr_String (Server.ClientHWAddr pkt) in
  let renewed :=
    Server.mkLease (Server.IP lease) (Server.MAC lease)
                   (now + Server.leaseDuration s) (Server.Hostname lease) in
  Server.handleDHCPRequest s pkt now
  = (Server.set_leases s (<[mac := renewed]> (Server.leases s)),
     Some (Server.sendAck s pkt (Server.RequestedIPAddress pkt)))
  /\ Server.rType (Server.sendAck s pkt (Server.RequestedIPAddress pkt))
     = Server.MessageTypeAck
  /\ Server.leases (fst (Server.handleDHCPRequest s pkt now)) !! mac = Some renewed
  /\ Server.IP renewed = Server.IP lease
  /\ Server.ExpiryTime renewed = now + Server.leaseDuration s
  /\ (Forall (fun p => p <> []) (Server.ipPool s0) ->
      forall hw ciaddr ident host later,
        Server.handleDHCPRequest s
          (Server.mkPkt hw ciaddr Server.MessageTypeRequest [] ident host) later
        = (s, Some (Server.sendNak s
                      (Server.mkPkt hw ciaddr Server.MessageTypeRequest [] ident host)))).
Proof.
  intros Hempty Hreach Htype Hlease Heq mac renewed.
  destruct (reachable_same_config s0 s Hreach) as (_ & _ & _ & _ & Hp & _).
  assert (Hstep : Server.handleDHCPRequest s pkt now
                  = (Server.set_leases s (<[mac := renewed]> (Server.leases s)),
                     Some (Server.sendAck s pkt (Server.RequestedIPAddress pkt)))).
  { unfold Server.handleDHCPRequest. rewrite Htype.
    unfold Server.handleRequest, Server.ownLease.
    assert (Hpool : Server.isIPInPool s (Server.RequestedIPAddress pkt) = true).
    { apply isIPInPool_Equal with (Server.IP lease); [assumption|].
      pose proof (reachable_leases_in_pool s0 s Hempty Hreach _ _ Hlease) as Hin.
      unfold Server.isIPInPool in *. by rewrite Hp. }
    rewrite Hpool. cbn [negb]. rewrite Hlease, Heq. reflexivity. }
  rewrite Hstep. repeat split; [cbn; apply lookup_insert_eq|].
  intros Hpool hw ciaddr ident host later.
  unfold Server.handleDHCPRequest, Server.handleRequest. cbn [Server.MsgType
    Server.RequestedIPAddress].
  assert (Hout : Server.isIPInPool s [] = false).
  { unfold Server.isIPInPool. rewrite Hp.
    destruct (Server.isIPInPool_loop (Server.ipPool s0) []) eqn:E; [|reflexivity].
    apply isIPInPool_loop_true in E as (p & Hin & Hnil).
    rewrite Forall_forall in Hpool. specialize (Hpool p Hin).
    rewrite Equal_nil_r in Hnil by assumption. discriminate. }
  rewrite Hout. reflexivity.
Qed.

Lemma renewal_extends_lease_witness :
  let s := fst (Server.serve demo_server [(request macA [10; 0; 0; 100], 0)]) in
  Server.handleDHCPRequest s (request macA [10; 0; 0; 100]) (2 * day)
  = (Server.set_leases s
       (<["02:00:00:00:00:0a"%string :=
            Server.mkLease [10; 0; 0; 100] macA (3 * day) "host"]> (Server.leases s)),
     Some (Server.sendAck s (request macA [10; 0; 0; 100]) [10; 0; 0; 100])).
Proof.
  exact (proj1 (renewal_extends_lease demo_server
           (fst (Server.serve demo_server [(request macA [10; 0; 0; 100], 0)]))
           (request macA [10; 0; 0; 100]) (2 * day)
           (Server.mkLease [10; 0; 0; 100] macA day "host")
           eq_refl
           (reachable_serve demo_server _ demo_server (Server.reach_init demo_server))
           eq_refl eq_refl eq_refl)).
Defined.
